(** * PyQInt integral engine: symmetry index, job list, matrix assembly
      and the primitive kernels

    A shallow embedding of [src/pyqint/integrals.cpp] (class [Integrator]).

    - [size_t] is a 64-bit unsigned integer: a [Z] in [0, 2^64) whose
      operations wrap around; [unsigned int] and [int] are 32 bits wide.
    - [double] is IEEE binary64, Rocq's primitive [float].
    - [std::vector<T>] is [list T]; reading or writing it through
      [operator[]] outside its bounds is undefined behaviour, the outcome
      [Undefined] below.
    - A C++ exception is the outcome [Throw] with the message of [what()].
    - The two [#pragma omp parallel for] loops are run in program order. *)

From Stdlib Require Import ZArith Lia Floats String.
From stdpp Require Import base list gmap pretty.

Set Warnings "-inexact-float".
Local Open Scope Z_scope.

(** ** Machine integers *)

Module Mach.

Definition wrap64 (z : Z) : Z := z mod 2 ^ 64.
Definition wrap32 (z : Z) : Z := z mod 2 ^ 32.

(** Conversion of a 32-bit pattern to [int] (two's complement). *)
Definition to_int (z : Z) : Z :=
  let u := wrap32 z in if u <? 2 ^ 31 then u else u - 2 ^ 32.

(** [size_t] arithmetic. *)
Definition size_add (a b : Z) : Z := wrap64 (a + b).
Definition size_sub (a b : Z) : Z := wrap64 (a - b).
Definition size_mul (a b : Z) : Z := wrap64 (a * b).

(** [unsigned int] arithmetic. *)
Definition uint_add (a b : Z) : Z := wrap32 (a + b).
Definition uint_sub (a b : Z) : Z := wrap32 (a - b).
Definition uint_mul (a b : Z) : Z := wrap32 (a * b).

(** [int] arithmetic, wrapping as the compiled code does. *)
Definition int_add (a b : Z) : Z := to_int (a + b).
Definition int_sub (a b : Z) : Z := to_int (a - b).
Definition int_mul (a b : Z) : Z := to_int (a * b).

(** The values of an [int]. *)
Definition is_int (z : Z) : Prop := - 2 ^ 31 <= z < 2 ^ 31.

End Mach.
Import Mach.

(** ** Outcomes of a call *)

Inductive outcome (A : Type) : Type :=
  | Ok (a : A)
  | Throw (what : string)
  | Undefined.
Arguments Ok {A} a.
Arguments Throw {A} what.
Arguments Undefined {A}.

#[global] Instance outcome_ret : MRet outcome := fun _ a => Ok a.
#[global] Instance outcome_bind : MBind outcome := fun _ _ f m =>
  match m with
  | Ok a => f a
  | Throw w => Throw w
  | Undefined => Undefined
  end.

(** [v[i]] on a [std::vector]. *)
Definition vec_get {A} (v : list A) (i : Z) : outcome A :=
  if (0 <=? i) && (i <? Z.of_nat (length v))
  then match v !! Z.to_nat i with Some x => Ok x | None => Undefined end
  else Undefined.

(** [v[i] = x] on a [std::vector]. *)
Definition vec_set {A} (v : list A) (i : Z) (x : A) : outcome (list A) :=
  if (0 <=? i) && (i <? Z.of_nat (length v))
  then Ok (<[Z.to_nat i := x]> v)
  else Undefined.

(** [for (T i = lo; i < lo + n; i++) s = body(i, s)], leaving at the
    first iteration that does not complete. *)
Fixpoint for_loop {St} (n : nat) (lo : Z) (body : Z -> St -> outcome St)
    (s : St) : outcome St :=
  match n with
  | O => Ok s
  | S n' => s' ← body lo s; for_loop n' (lo + 1) body s'
  end.

(** The same loop over an explicit list of iterations. *)
Fixpoint foldM {A St} (f : A -> St -> outcome St) (l : list A) (s : St)
    : outcome St :=
  match l with
  | [] => Ok s
  | x :: l' => s' ← f x s; foldM f l' s'
  end.

(** ** The symmetry index [Integrator::teindex] *)

Definition teindex (i j k l : Z) : Z :=
  let '(i, j) := if i <? j then (j, i) else (i, j) in
  let '(k, l) := if k <? l then (l, k) else (k, l) in
  let ij := size_add (size_mul i (size_add i 1) / 2) j in
  let kl := size_add (size_mul k (size_add k 1) / 2) l in
  let '(ij, kl) := if ij <? kl then (kl, ij) else (ij, kl) in
  size_add (size_mul ij (size_add ij 1) / 2) kl.

(** ** Doubles and [Eigen::Vector3d] *)

(** Conversion of an integer value to [double]; exact below [2^53]. *)
Definition double_of_Z (z : Z) : float :=
  match z with
  | Z0 => 0%float
  | Zpos _ => of_uint63 (Uint63.of_Z z)
  | Zneg p => (- of_uint63 (Uint63.of_Z (Zpos p)))%float
  end.

Definition vec3 : Type := float * float * float.

Definition vec3_x (v : vec3) : float := v.1.1.
Definition vec3_y (v : vec3) : float := v.1.2.
Definition vec3_z (v : vec3) : float := v.2.

Definition vec3_sub (a b : vec3) : vec3 :=
  ((vec3_x a - vec3_x b)%float, (vec3_y a - vec3_y b)%float,
   (vec3_z a - vec3_z b)%float).

Definition vec3_add (a b : vec3) : vec3 :=
  ((vec3_x a + vec3_x b)%float, (vec3_y a + vec3_y b)%float,
   (vec3_z a + vec3_z b)%float).

Definition vec3_scale (s : float) (a : vec3) : vec3 :=
  ((s * vec3_x a)%float, (s * vec3_y a)%float, (s * vec3_z a)%float).

Definition vec3_div (a : vec3) (s : float) : vec3 :=
  ((vec3_x a / s)%float, (vec3_y a / s)%float, (vec3_z a / s)%float).

(** The squares are summed in the order of the coordinates. *)
Definition squaredNorm (a : vec3) : float :=
  (vec3_x a * vec3_x a + vec3_y a * vec3_y a + vec3_z a * vec3_z a)%float.

(** ** Primitive and contracted Gaussians *)

(** Modelled from the spec: the classes [GTO] and [CGF] are declared in
    cgf.h, which is not among the sources.  A primitive carries its
    contraction coefficient, exponent, angular-momentum triple (three
    [unsigned int]), centre and normalisation constant; a contracted
    function is its nominal centre and the ordered sequence of its
    primitives. *)
Record GTO : Type := mkGTO {
  get_coefficient : float;
  get_alpha : float;
  get_l : Z;
  get_m : Z;
  get_n : Z;
  get_position : vec3;
  get_norm : float
}.

Record CGF : Type := mkCGF {
  get_r : vec3;
  gtos : list GTO
}.

(** [for (int i = lo; i < lo + n; i++) s = body(i, s)] for a body that
    always completes. *)
Fixpoint for_acc {St} (n : nat) (lo : Z) (body : Z -> St -> St) (s : St) : St :=
  match n with
  | O => s
  | S n' => for_acc n' (lo + 1) body (body lo s)
  end.

Definition pi : float := 3.141592653589793%float.

(** The nucleus test of the derivative routines:
    [(cgf.get_r() - nucleus).squaredNorm() < 0.0001]. *)
Definition attached (cgf : CGF) (nucleus : vec3) : bool :=
  (squaredNorm (vec3_sub (get_r cgf) nucleus) <? 0.0001)%float.

(** What the sources take from libm, Boost, cgf.cpp and gamma.cpp, each
    a function that returns a double: [std::pow], [std::exp],
    [boost::math::factorial<double>],
    [boost::math::double_factorial<double>], the normalisation constant
    the [GTO] constructor computes, and the two primitive kernels built on
    the incomplete gamma function of gamma.cpp ([Integrator::nuclear] and
    [Integrator::repulsion] on primitives), which [evaluate_cgfs] takes as
    given; their code is followed in the section on the incomplete gamma
    function. *)
Class Library : Type := {
  libm_pow : float -> float -> float;
  libm_exp : float -> float;
  factorial : Z -> float;
  double_factorial : Z -> float;
  gto_normalization : float -> Z -> Z -> Z -> float;
  nuclear_gto : GTO -> GTO -> vec3 -> float;
  repulsion_gto : GTO -> GTO -> GTO -> GTO -> float
}.

Section Kernels.

Context `{Lib : Library}.

(** The constructor [GTO(c, x, y, z, alpha, l, m, n)]. *)
Definition GTO_new (c x y z alpha : float) (l m n : Z) : GTO :=
  mkGTO c alpha l m n (x, y, z) (gto_normalization alpha l m n).

(** [Integrator::binomial]; the three tests are joined by the bitwise
    [|], so [a - b] is always computed. *)
Definition binomial (a b : Z) : float :=
  if (a <? 0) || (b <? 0) || (int_sub a b <? 0)
  then 1%float
  else (factorial a / (factorial b * factorial (int_sub a b)))%float.

(** [Integrator::binomial_prefactor]. *)
Definition binomial_prefactor (s ia ib : Z) (xpa xpb : float) : float :=
  for_acc (Z.to_nat (int_add s 1)) 0 (fun t sum =>
    if (int_sub s ia <=? t) && (t <=? ib)
    then (sum + binomial ia (int_sub s t) * binomial ib t *
                libm_pow xpa (double_of_Z (int_add (int_sub ia s) t)) *
                libm_pow xpb (double_of_Z (int_sub ib t)))%float
    else sum) 0%float.

(** [Integrator::overlap_1D]; the bound [1 + floor(0.5 * (l1 + l2))] is
    an integer, the quotient rounded down. *)
Definition overlap_1D (l1 l2 : Z) (x1 x2 gamma : float) : float :=
  for_acc (Z.to_nat (1 + int_add l1 l2 / 2)) 0 (fun i sum =>
    (sum + binomial_prefactor (int_mul 2 i) l1 l2 x1 x2 *
           (if (i =? 0)%Z then 1 else double_factorial (int_sub (int_mul 2 i) 1)) /
           libm_pow (2 * gamma) (double_of_Z i))%float) 0%float.

(** [Integrator::gaussian_product_center]. *)
Definition gaussian_product_center (alpha1 : float) (a : vec3)
    (alpha2 : float) (b : vec3) : vec3 :=
  vec3_div (vec3_add (vec3_scale alpha1 a) (vec3_scale alpha2 b))
           (alpha1 + alpha2)%float.

(** [Integrator::overlap] on exponents, angular momenta and centres; the
    [unsigned int] momenta are converted to [int] for [overlap_1D]. *)
Definition overlap (alpha1 : float) (l1 m1 n1 : Z) (a : vec3)
    (alpha2 : float) (l2 m2 n2 : Z) (b : vec3) : float :=
  let rab2 := squaredNorm (vec3_sub a b) in
  let gamma := (alpha1 + alpha2)%float in
  let p := gaussian_product_center alpha1 a alpha2 b in
  let pre := (libm_pow (pi / gamma) 1.5 *
              libm_exp (- alpha1 * alpha2 * rab2 / gamma))%float in
  let wx := overlap_1D (to_int l1) (to_int l2)
              (vec3_x p - vec3_x a)%float (vec3_x p - vec3_x b)%float gamma in
  let wy := overlap_1D (to_int m1) (to_int m2)
              (vec3_y p - vec3_y a)%float (vec3_y p - vec3_y b)%float gamma in
  let wz := overlap_1D (to_int n1) (to_int n2)
              (vec3_z p - vec3_z a)%float (vec3_z p - vec3_z b)%float gamma in
  (pre * wx * wy * wz)%float.

(** [Integrator::overlap] on two primitives. *)
Definition overlap_gto (gto1 gto2 : GTO) : float :=
  overlap (get_alpha gto1) (get_l gto1) (get_m gto1) (get_n gto1) (get_position gto1)
          (get_alpha gto2) (get_l gto2) (get_m gto2) (get_n gto2) (get_position gto2).

(** [Integrator::kinetic] on two primitives. *)
Definition kinetic_gto (gto1 gto2 : GTO) : float :=
  let S l m n :=
    overlap (get_alpha gto1) (get_l gto1) (get_m gto1) (get_n gto1) (get_position gto1)
            (get_alpha gto2) l m n (get_position gto2) in
  let l2 := get_l gto2 in let m2 := get_m gto2 in let n2 := get_n gto2 in
  let term0 :=
    (get_alpha gto2 *
     (2 * double_of_Z (uint_add (uint_add l2 m2) n2) + 3) *
     overlap_gto gto1 gto2)%float in
  let term1 :=
    (-2 * libm_pow (get_alpha gto2) 2 *
     (S (uint_add l2 2) m2 n2 + S l2 (uint_add m2 2) n2 + S l2 m2 (uint_add n2 2)))%float in
  let term2 :=
    (-0.5 * (double_of_Z (uint_mul l2 (uint_sub l2 1)) * S (uint_sub l2 2) m2 n2 +
             double_of_Z (uint_mul m2 (uint_sub m2 1)) * S l2 (uint_sub m2 2) n2 +
             double_of_Z (uint_mul n2 (uint_sub n2 1)) * S l2 m2 (uint_sub n2 2)))%float in
  (term0 + term1 + term2)%float.

(** The array [gto_ang] of the derivative routines, as [overlap] takes it. *)
Definition ang (gto_ang : list Z) (k : nat) : Z := default 0 (gto_ang !! k).

(** [Integrator::overlap_deriv] on two primitives. *)
Definition overlap_deriv_gto (gto1 gto2 : GTO) (coord : Z) : outcome float :=
  let S (a : list Z) :=
    overlap (get_alpha gto1) (ang a 0) (ang a 1) (ang a 2) (get_position gto1)
            (get_alpha gto2) (get_l gto2) (get_m gto2) (get_n gto2) (get_position gto2) in
  let gto_ang := [get_l gto1; get_m gto1; get_n gto1] in
  a ← vec_get gto_ang coord;
  if negb (a =? 0) then
    gto_ang ← vec_set gto_ang coord (uint_add a 1);
    let term_plus := S gto_ang in
    gto_ang ← vec_set gto_ang coord (uint_sub (uint_add a 1) 2);
    let term_min := S gto_ang in
    let a' := uint_add (uint_sub (uint_add a 1) 2) 1 in
    Ok (2 * get_alpha gto1 * term_plus - double_of_Z a' * term_min)%float
  else
    gto_ang ← vec_set gto_ang coord (uint_add a 1);
    Ok (2 * get_alpha gto1 * S gto_ang)%float.

(** [Integrator::kinetic_deriv] on two primitives. *)
Definition kinetic_deriv_gto (gto1 gto2 : GTO) (coord : Z) : outcome float :=
  let K (a : list Z) :=
    kinetic_gto
      (GTO_new (get_coefficient gto1)
         (vec3_x (get_position gto1)) (vec3_y (get_position gto1))
         (vec3_z (get_position gto1)) (get_alpha gto1)
         (ang a 0) (ang a 1) (ang a 2))
      gto2 in
  let gto_ang := [get_l gto1; get_m gto1; get_n gto1] in
  a ← vec_get gto_ang coord;
  if negb (a =? 0) then
    gto_ang ← vec_set gto_ang coord (uint_add a 1);
    let term_plus := K gto_ang in
    gto_ang ← vec_set gto_ang coord (uint_sub (uint_add a 1) 2);
    let term_min := K gto_ang in
    let a' := uint_add (uint_sub (uint_add a 1) 2) 1 in
    Ok (2 * get_alpha gto1 * term_plus - double_of_Z a' * term_min)%float
  else
    gto_ang ← vec_set gto_ang coord (uint_add a 1);
    Ok (2 * get_alpha gto1 * K gto_ang)%float.

(** [Integrator::repulsion_deriv] on four primitives. *)
Definition repulsion_deriv_gto (gto1 gto2 gto3 gto4 : GTO) (coord : Z)
    : outcome float :=
  let R (a : list Z) :=
    repulsion_gto
      (GTO_new (get_coefficient gto1)
         (vec3_x (get_position gto1)) (vec3_y (get_position gto1))
         (vec3_z (get_position gto1)) (get_alpha gto1)
         (ang a 0) (ang a 1) (ang a 2))
      gto2 gto3 gto4 in
  let gto_ang := [get_l gto1; get_m gto1; get_n gto1] in
  a ← vec_get gto_ang coord;
  if negb (a =? 0) then
    gto_ang ← vec_set gto_ang coord (uint_add a 1);
    let term_plus := R gto_ang in
    gto_ang ← vec_set gto_ang coord (uint_sub (uint_add a 1) 2);
    let term_min := R gto_ang in
    let a' := uint_add (uint_sub (uint_add a 1) 2) 1 in
    Ok (2 * get_alpha gto1 * term_plus - double_of_Z a' * term_min)%float
  else
    gto_ang ← vec_set gto_ang coord (uint_add a 1);
    Ok (2 * get_alpha gto1 * R gto_ang)%float.

(** *** Contractions *)

(** The double loop over the primitives of two contracted functions,
    [sum += norm_k * norm_l * coeff_k * coeff_l * kernel(k, l)]. *)
Definition contract2 (kernel : GTO -> GTO -> float) (cgf1 cgf2 : CGF) : float :=
  fold_left (fun sum gk =>
    fold_left (fun sum gl =>
      (sum + get_norm gk * get_norm gl *
             get_coefficient gk * get_coefficient gl * kernel gk gl)%float)
      (gtos cgf2) sum)
    (gtos cgf1) 0%float.

(** [Integrator::overlap], [kinetic] and [nuclear] on contracted functions. *)
Definition overlap_cgf (cgf1 cgf2 : CGF) : float := contract2 overlap_gto cgf1 cgf2.

Definition kinetic_cgf (cgf1 cgf2 : CGF) : float := contract2 kinetic_gto cgf1 cgf2.

Definition nuclear_cgf (cgf1 cgf2 : CGF) (nucleus : vec3) (charge : Z) : float :=
  (contract2 (fun g1 g2 => nuclear_gto g1 g2 nucleus) cgf1 cgf2 * double_of_Z charge)%float.

(** [Integrator::repulsion] on four contracted functions. *)
Definition repulsion_cgf (cgf1 cgf2 cgf3 cgf4 : CGF) : float :=
  fold_left (fun sum gi =>
    fold_left (fun sum gj =>
      fold_left (fun sum gk =>
        fold_left (fun sum gl =>
          let pre := (get_coefficient gi * get_coefficient gj *
                      get_coefficient gk * get_coefficient gl)%float in
          (sum + get_norm gi * get_norm gj * get_norm gk * get_norm gl * pre *
                 repulsion_gto gi gj gk gl)%float)
          (gtos cgf4) sum)
        (gtos cgf3) sum)
      (gtos cgf2) sum)
    (gtos cgf1) 0%float.

(** The double loop of the pair derivatives, after the early exit. *)
Definition contract2_deriv (deriv : GTO -> GTO -> Z -> outcome float)
    (cgf1_nuc cgf2_nuc : bool) (cgf1 cgf2 : CGF) (coord : Z) : outcome float :=
  foldM (fun gk sum =>
    foldM (fun gl sum =>
      t1 ← (if cgf1_nuc then deriv gk gl coord else Ok 0%float);
      t2 ← (if cgf2_nuc then deriv gl gk coord else Ok 0%float);
      Ok (sum + get_norm gk * get_norm gl *
                get_coefficient gk * get_coefficient gl * (t1 + t2))%float)
      (gtos cgf2) sum)
    (gtos cgf1) 0%float.

(** [Integrator::overlap_deriv] on contracted functions. *)
Definition overlap_deriv_cgf (cgf1 cgf2 : CGF) (nucleus : vec3) (coord : Z)
    : outcome float :=
  let cgf1_nuc := attached cgf1 nucleus in
  let cgf2_nuc := attached cgf2 nucleus in
  if Bool.eqb cgf1_nuc cgf2_nuc then Ok 0%float
  else contract2_deriv overlap_deriv_gto cgf1_nuc cgf2_nuc cgf1 cgf2 coord.

(** [Integrator::kinetic_deriv] on contracted functions. *)
Definition kinetic_deriv_cgf (cgf1 cgf2 : CGF) (nucleus : vec3) (coord : Z)
    : outcome float :=
  let cgf1_nuc := attached cgf1 nucleus in
  let cgf2_nuc := attached cgf2 nucleus in
  if Bool.eqb cgf1_nuc cgf2_nuc then Ok 0%float
  else contract2_deriv kinetic_deriv_gto cgf1_nuc cgf2_nuc cgf1 cgf2 coord.

(** [Integrator::repulsion_deriv] on contracted functions. *)
Definition repulsion_deriv_cgf (cgf1 cgf2 cgf3 cgf4 : CGF) (nucleus : vec3)
    (coord : Z) : outcome float :=
  let cgf1_nuc := attached cgf1 nucleus in
  let cgf2_nuc := attached cgf2 nucleus in
  let cgf3_nuc := attached cgf3 nucleus in
  let cgf4_nuc := attached cgf4 nucleus in
  if Bool.eqb cgf1_nuc cgf2_nuc && Bool.eqb cgf2_nuc cgf3_nuc &&
     Bool.eqb cgf3_nuc cgf4_nuc
  then Ok 0%float
  else
    foldM (fun gi sum =>
      foldM (fun gj sum =>
        foldM (fun gk sum =>
          foldM (fun gl sum =>
            let pre := (get_coefficient gi * get_coefficient gj *
                        get_coefficient gk * get_coefficient gl)%float in
            t1 ← (if cgf1_nuc then repulsion_deriv_gto gi gj gk gl coord else Ok 0%float);
            t2 ← (if cgf2_nuc then repulsion_deriv_gto gj gi gk gl coord else Ok 0%float);
            t3 ← (if cgf3_nuc then repulsion_deriv_gto gk gl gi gj coord else Ok 0%float);
            t4 ← (if cgf4_nuc then repulsion_deriv_gto gl gk gi gj coord else Ok 0%float);
            Ok (sum + pre * get_norm gi * get_norm gj * get_norm gk * get_norm gl *
                      (t1 + t2 + t3 + t4))%float)
            (gtos cgf4) sum)
          (gtos cgf3) sum)
        (gtos cgf2) sum)
      (gtos cgf1) 0%float.

(** ** [Integrator::evaluate_cgfs] *)

(** An [Eigen::MatrixXd] with [sz] rows is its column-major storage;
    [M(i,j)] is the element [i + j * sz]. *)
Definition mat_index (sz i j : Z) : Z := i + j * sz.

Definition mat_get (sz : Z) (M : list float) (i j : Z) : outcome float :=
  vec_get M (mat_index sz i j).

Definition mat_set (sz : Z) (M : list float) (i j : Z) (x : float)
    : outcome (list float) :=
  vec_set M (mat_index sz i j) x.

(** [Eigen::MatrixXd::Zero(sz, sz)]. *)
Definition mat_zero (sz : Z) : list float := replicate (Z.to_nat (sz * sz)) 0%float.

(** The state of the pair loop: [S], [T] and the matrices [Vn]. *)
Definition pair_state : Type := list float * list float * list (list float).

(** The loop over the point charges at [(i, j)]:
    [Vn[k](i,j) = Vn[k](j,i) = nuclear(cgfs[i], cgfs[j], vec3(px[k], py[k], pz[k]), charges[k])]. *)
Definition charge_loop (charges : list Z) (px py pz : list float)
    (sz : Z) (ci cj : CGF) (i j : Z) (Vn : list (list float))
    : outcome (list (list float)) :=
  for_loop (length charges) 0 (fun k Vn =>
    x ← vec_get px k;
    y ← vec_get py k;
    z ← vec_get pz k;
    q ← vec_get charges k;
    let v := nuclear_cgf ci cj (x, y, z) (wrap32 q) in
    M ← vec_get Vn k;
    M ← mat_set sz M j i v;
    M ← mat_set sz M i j v;
    vec_set Vn k M) Vn.

(** The body of the pair loop at [(i, j)]. *)
Definition pair_body (cgfs : list CGF) (charges : list Z) (px py pz : list float)
    (sz i j : Z) (st : pair_state) : outcome pair_state :=
  let '(Smat, Tmat, Vn) := st in
  ci ← vec_get cgfs i;
  cj ← vec_get cgfs j;
  let s := overlap_cgf ci cj in
  Smat ← mat_set sz Smat j i s;
  Smat ← mat_set sz Smat i j s;
  let t := kinetic_cgf ci cj in
  Tmat ← mat_set sz Tmat j i t;
  Tmat ← mat_set sz Tmat i j t;
  Vn ← charge_loop charges px py pz sz ci cj i j Vn;
  Ok (Smat, Tmat, Vn).

(** The pair loop: [i] is an [int] bounded by [(int)sz], [j] an
    [unsigned int] running from [i] up to [sz] (sizes below [2^32], all
    that an [sz]-by-[sz] matrix of doubles can be allocated for). *)
Definition pair_loop (cgfs : list CGF) (charges : list Z) (px py pz : list float)
    (sz : Z) (st : pair_state) : outcome pair_state :=
  for_loop (Z.to_nat (to_int sz)) 0 (fun i =>
    for_loop (Z.to_nat (sz - i)) i (fun j =>
      pair_body cgfs charges px py pz sz i j)) st.

(** [V(i,j) += Vn[k](i,j)] over all [i], [j], [k]. *)
Definition combine_nuclear (ncharges sz : Z) (Vn : list (list float))
    (Vmat : list float) : outcome (list float) :=
  for_loop (Z.to_nat sz) 0 (fun i =>
    for_loop (Z.to_nat sz) 0 (fun j =>
      for_loop (Z.to_nat ncharges) 0 (fun k Vmat =>
        M ← vec_get Vn k;
        x ← mat_get sz M i j;
        v ← mat_get sz Vmat i j;
        mat_set sz Vmat i j (v + x)%float))) Vmat.

(** The matrices [S], [T] and [V] (lines 43 to 72). *)
Definition integral_matrices (cgfs : list CGF) (charges : list Z)
    (px py pz : list float) : outcome (list float * list float * list float) :=
  let sz := Z.of_nat (length cgfs) in
  let Smat := mat_zero sz in
  let Tmat := mat_zero sz in
  let Vmat := mat_zero sz in
  let Vn := replicate (length charges) (mat_zero sz) in
  '(Smat, Tmat, Vn) ← pair_loop cgfs charges px py pz sz (Smat, Tmat, Vn);
  Vmat ← combine_nuclear (Z.of_nat (length charges)) sz Vn Vmat;
  Ok (Smat, Tmat, Vmat).

(** A job [{idx, i, j, k, l}]. *)
Record job : Type := mkJob {
  job_idx : Z; job_i : Z; job_j : Z; job_k : Z; job_l : Z
}.

Definition illegal_position : string :=
  "Process tried to access illegal array position".

(** The number of doubles requested for [tedouble]. *)
Definition te_size (sz : Z) : Z :=
  size_add (teindex (size_sub sz 1) (size_sub sz 1) (size_sub sz 1) (size_sub sz 1)) 1.

(** The state of the job loop: [tedouble] and [jobs]. *)
Definition job_state : Type := list float * list job.

(** The body of the job loop at [(i, j, k, l)]. *)
Definition job_body (i j k l : Z) (st : job_state) : outcome job_state :=
  let '(tedouble, jobs) := st in
  let ij := size_add (size_mul i (size_add i 1) / 2) j in
  let kl := size_add (size_mul k (size_add k 1) / 2) l in
  if ij <=? kl then
    let idx := teindex i j k l in
    if Z.of_nat (length tedouble) <=? idx then Throw illegal_position
    else
      x ← vec_get tedouble idx;
      if (x <? 0)%float then
        tedouble ← vec_set tedouble idx 1%float;
        Ok (tedouble, jobs ++ [mkJob idx i j k l])
      else Ok st
  else Ok st.

(** The fourfold loop that builds the job list. *)
Definition build_jobs (sz : Z) (st : job_state) : outcome job_state :=
  for_loop (Z.to_nat sz) 0 (fun i =>
    for_loop (Z.to_nat sz) 0 (fun j =>
      for_loop (Z.to_nat sz) 0 (fun k =>
        for_loop (Z.to_nat sz) 0 (fun l => job_body i j k l)))) st.

(** Allocation of [tedouble] and construction of the jobs (lines 75 to 101). *)
Definition two_electron_jobs (sz : Z) : outcome job_state :=
  build_jobs sz (replicate (Z.to_nat (te_size sz)) (-1)%float, []).

(** The loop that evaluates the jobs; its counter is an [int] bounded by
    [(int)jobs.size()]. *)
Definition run_jobs (cgfs : list CGF) (jobs : list job) (tedouble : list float)
    : outcome (list float) :=
  for_loop (Z.to_nat (to_int (Z.of_nat (length jobs)))) 0 (fun s tedouble =>
    jb ← vec_get jobs s;
    ci ← vec_get cgfs (job_i jb);
    cj ← vec_get cgfs (job_j jb);
    ck ← vec_get cgfs (job_k jb);
    cl ← vec_get cgfs (job_l jb);
    vec_set tedouble (job_idx jb) (repulsion_cgf ci cj ck cl)) tedouble.

(** The two-electron array as returned (lines 75 to 112). *)
Definition two_electron (cgfs : list CGF) : outcome (list float) :=
  '(tedouble, jobs) ← two_electron_jobs (Z.of_nat (length cgfs));
  run_jobs cgfs jobs tedouble.

(** The first [sz * sz] doubles of a matrix, [M.data()] to
    [M.data() + sz*sz]. *)
Definition mat_data (sz : Z) (M : list float) : list float :=
  take (Z.to_nat (size_mul sz sz)) M.

Definition evaluate_cgfs (cgfs : list CGF) (charges : list Z)
    (px py pz : list float) : outcome (list float) :=
  let sz := Z.of_nat (length cgfs) in
  '(Smat, Tmat, Vmat) ← integral_matrices cgfs charges px py pz;
  tedouble ← two_electron cgfs;
  Ok (mat_data sz Smat ++ mat_data sz Tmat ++ mat_data sz Vmat ++ tedouble).

End Kernels.

(** ** The kernels on the incomplete gamma function *)

(** The exception of a [std::vector] constructor asked for more than
    [max_size()] elements; its message is the standard library's, the
    outcome carries the name of its type. *)
Definition length_error : string := "std::length_error".

(** [std::vector<T>(n, x)] for an [int] [n]: a negative [n] converts to a
    [size_t] above [max_size()]. *)
Definition vec_new {A} (n : Z) (x : A) : outcome (list A) :=
  if n <? 0 then Throw length_error else Ok (replicate (Z.to_nat n) x).

(** [for (int i = 0; i <= bound; i++) s = body(i, s)]; at
    [bound == INT_MAX] the increment of the counter overflows. *)
Definition for_upto {St} (bound : Z) (body : Z -> St -> outcome St) (s : St)
    : outcome St :=
  if bound =? 2 ^ 31 - 1 then Undefined
  else for_loop (Z.to_nat (bound + 1)) 0 body s.

(** The value of [pi] in [Integrator::repulsion]. *)
Definition pi_repulsion : float := 3.14159265359%float.

Section GammaKernels.

Context `{Lib : Library}.

(** [GammaInc::Fgamma] of gamma.cpp, which is not among the sources:
    any function of the order and the argument. *)
Variable Fgamma : Z -> float -> float.

(** [Integrator::A_term]; the arguments of [std::pow] are converted to
    [double], those of Boost's factorial to [unsigned]. *)
Definition A_term (i r u l1 l2 : Z) (pax pbx cpx gamma : float) : float :=
  let e := int_sub (int_sub i (int_mul 2 r)) (int_mul 2 u) in
  (libm_pow (-1) (double_of_Z i) * binomial_prefactor i l1 l2 pax pbx *
   libm_pow (-1) (double_of_Z u) * factorial (wrap32 i) *
   libm_pow cpx (double_of_Z e) *
   libm_pow (0.25 / gamma) (double_of_Z (int_add r u)) /
   factorial (wrap32 r) / factorial (wrap32 u) / factorial (wrap32 e))%float.

(** [Integrator::A_array]; [int] division truncates. *)
Definition A_array (l1 l2 : Z) (pa pb cp g : float) : outcome (list float) :=
  let imax := int_add (int_add l1 l2) 1 in
  arrA ← vec_new imax 0%float;
  for_loop (Z.to_nat imax) 0 (fun i =>
    for_loop (Z.to_nat (i ÷ 2 + 1)) 0 (fun r =>
      for_loop (Z.to_nat (int_sub i (int_mul 2 r) ÷ 2 + 1)) 0 (fun u arrA =>
        let iI := int_sub (int_sub i (int_mul 2 r)) u in
        x ← vec_get arrA iI;
        vec_set arrA iI (x + A_term i r u l1 l2 pa pb cp g)%float))) arrA.

(** [Integrator::A_array_deriv]. *)
Definition A_array_deriv (l1 l2 : Z) (pa pb cp g : float) : outcome (list float) :=
  let imax := int_add (int_add l1 l2) 1 in
  arrA ← vec_new imax 0%float;
  for_loop (Z.to_nat imax) 0 (fun i =>
    for_loop (Z.to_nat (i ÷ 2 + 1)) 0 (fun r =>
      for_loop (Z.to_nat (int_sub i (int_mul 2 r) ÷ 2 + 1)) 0 (fun u arrA =>
        let iI := int_sub (int_sub i (int_mul 2 r)) u in
        let cppow := int_sub (int_sub i (int_mul 2 r)) (int_mul 2 u) in
        let term := A_term i r u l1 l2 pa pb cp g in
        if negb (cppow =? 0) && negb (cp =? 0)%float then
          let term := (term * (-1 * double_of_Z cppow / cp))%float in
          x ← vec_get arrA iI;
          vec_set arrA iI (x + term)%float
        else Ok arrA))) arrA.

(** [Integrator::nuclear] on centres, angular momenta and exponents. *)
Definition nuclear (a : vec3) (l1 m1 n1 : Z) (alpha1 : float)
    (b : vec3) (l2 m2 n2 : Z) (alpha2 : float) (c : vec3) : outcome float :=
  let gamma := (alpha1 + alpha2)%float in
  let p := gaussian_product_center alpha1 a alpha2 b in
  let rab2 := squaredNorm (vec3_sub a b) in
  let rcp2 := squaredNorm (vec3_sub c p) in
  ax ← A_array l1 l2 (vec3_x p - vec3_x a)%float (vec3_x p - vec3_x b)%float
         (vec3_x p - vec3_x c)%float gamma;
  ay ← A_array m1 m2 (vec3_y p - vec3_y a)%float (vec3_y p - vec3_y b)%float
         (vec3_y p - vec3_y c)%float gamma;
  az ← A_array n1 n2 (vec3_z p - vec3_z a)%float (vec3_z p - vec3_z b)%float
         (vec3_z p - vec3_z c)%float gamma;
  sum ← for_upto (int_add l1 l2) (fun i =>
          for_upto (int_add m1 m2) (fun j =>
            for_upto (int_add n1 n2) (fun k sum =>
              xi ← vec_get ax i;
              yj ← vec_get ay j;
              zk ← vec_get az k;
              Ok (sum + xi * yj * zk *
                        Fgamma (int_add (int_add i j) k) (rcp2 * gamma))%float)))
          0%float;
  Ok (-2 * pi / gamma * libm_exp (- alpha1 * alpha2 * rab2 / gamma) * sum)%float.

(** [Integrator::nuclear] on two primitives; the [unsigned int] momenta
    are converted to [int]. *)
Definition nuclear_primitives (gto1 gto2 : GTO) (nucleus : vec3) : outcome float :=
  nuclear (get_position gto1) (to_int (get_l gto1)) (to_int (get_m gto1))
          (to_int (get_n gto1)) (get_alpha gto1)
          (get_position gto2) (to_int (get_l gto2)) (to_int (get_m gto2))
          (to_int (get_n gto2)) (get_alpha gto2) nucleus.

(** [Integrator::nuclear_deriv_op] on centres, angular momenta and
    exponents; [(c-p)[coord]], [itmax[..]] and [v[..]] are indexed by the
    coordinate, and the [switch] has no default. *)
Definition nuclear_deriv_op (a : vec3) (l1 m1 n1 : Z) (alpha1 : float)
    (b : vec3) (l2 m2 n2 : Z) (alpha2 : float) (c : vec3) (coord : Z)
    : outcome float :=
  let gamma := (alpha1 + alpha2)%float in
  let p := gaussian_product_center alpha1 a alpha2 b in
  let rab2 := squaredNorm (vec3_sub a b) in
  let rcp2 := squaredNorm (vec3_sub c p) in
  let cp := vec3_sub c p in
  rcpcoord ← vec_get [vec3_x cp; vec3_y cp; vec3_z cp] coord;
  ax ← A_array l1 l2 (vec3_x p - vec3_x a)%float (vec3_x p - vec3_x b)%float
         (vec3_x p - vec3_x c)%float gamma;
  ay ← A_array m1 m2 (vec3_y p - vec3_y a)%float (vec3_y p - vec3_y b)%float
         (vec3_y p - vec3_y c)%float gamma;
  az ← A_array n1 n2 (vec3_z p - vec3_z a)%float (vec3_z p - vec3_z b)%float
         (vec3_z p - vec3_z c)%float gamma;
  ad ← (if coord =? 0 then
           A_array_deriv l1 l2 (vec3_x p - vec3_x a)%float (vec3_x p - vec3_x b)%float
             (vec3_x p - vec3_x c)%float gamma
         else if coord =? 1 then
           A_array_deriv m1 m2 (vec3_y p - vec3_y a)%float (vec3_y p - vec3_y b)%float
             (vec3_y p - vec3_y c)%float gamma
         else if coord =? 2 then
           A_array_deriv n1 n2 (vec3_z p - vec3_z a)%float (vec3_z p - vec3_z b)%float
             (vec3_z p - vec3_z c)%float gamma
         else Ok []);
  let itmax := [int_add l1 l2; int_add m1 m2; int_add n1 n2] in
  let v := [ax; ay; az] in
  let v0 := coord in
  let v1 := uint_add coord 1 mod 3 in
  let v2 := uint_add coord 2 mod 3 in
  it0 ← vec_get itmax v0;
  it1 ← vec_get itmax v1;
  it2 ← vec_get itmax v2;
  sum ← for_upto it0 (fun i =>
          for_upto it1 (fun j =>
            for_upto it2 (fun k sum =>
              w0 ← vec_get v v0;
              w0i ← vec_get w0 i;
              adi ← vec_get ad i;
              w1 ← vec_get v v1;
              w1j ← vec_get w1 j;
              w2 ← vec_get v v2;
              w2k ← vec_get w2 k;
              Ok (sum +
                  (w0i * (-2) * gamma * rcpcoord *
                     Fgamma (int_add (int_add (int_add i j) k) 1) (rcp2 * gamma) +
                   adi * Fgamma (int_add (int_add i j) k) (rcp2 * gamma)) *
                  w1j * w2k)%float)))
          0%float;
  Ok (-2 * pi / gamma * libm_exp (- alpha1 * alpha2 * rab2 / gamma) * sum)%float.

(** [Integrator::nuclear_deriv_op] on two primitives. *)
Definition nuclear_deriv_op_primitives (gto1 gto2 : GTO) (nucleus : vec3)
    (coord : Z) : outcome float :=
  nuclear_deriv_op
    (get_position gto1) (to_int (get_l gto1)) (to_int (get_m gto1))
    (to_int (get_n gto1)) (get_alpha gto1)
    (get_position gto2) (to_int (get_l gto2)) (to_int (get_m gto2))
    (to_int (get_n gto2)) (get_alpha gto2) nucleus coord.

(** [Integrator::nuclear_deriv_bf]. *)
Definition nuclear_deriv_bf (gto1 gto2 : GTO) (nucleus : vec3) (coord : Z)
    : outcome float :=
  let N (a : list Z) :=
    nuclear (get_position gto1) (to_int (ang a 0)) (to_int (ang a 1))
            (to_int (ang a 2)) (get_alpha gto1)
            (get_position gto2) (to_int (get_l gto2)) (to_int (get_m gto2))
            (to_int (get_n gto2)) (get_alpha gto2) nucleus in
  let gto_ang := [get_l gto1; get_m gto1; get_n gto1] in
  a ← vec_get gto_ang coord;
  if negb (a =? 0) then
    gto_ang ← vec_set gto_ang coord (uint_add a 1);
    term_plus ← N gto_ang;
    gto_ang ← vec_set gto_ang coord (uint_sub (uint_add a 1) 2);
    term_min ← N gto_ang;
    let a' := uint_add (uint_sub (uint_add a 1) 2) 1 in
    Ok (2 * get_alpha gto1 * term_plus - double_of_Z a' * term_min)%float
  else
    gto_ang ← vec_set gto_ang coord (uint_add a 1);
    term1 ← N gto_ang;
    Ok (2 * get_alpha gto1 * term1)%float.

(** [Integrator::nuclear_deriv] on contracted functions; it has no
    early exit. *)
Definition nuclear_deriv_cgf (cgf1 cgf2 : CGF) (nucleus : vec3) (charge : Z)
    (nucderiv : vec3) (coord : Z) : outcome float :=
  let n1 := attached cgf1 nucderiv in
  let n2 := attached cgf2 nucderiv in
  let n3 := (squaredNorm (vec3_sub nucleus nucderiv) <? 0.0001)%float in
  sum ← foldM (fun gk sum =>
          foldM (fun gl sum =>
            t1 ← (if n1 then nuclear_deriv_bf gk gl nucleus coord else Ok 0%float);
            t2 ← (if n2 then nuclear_deriv_bf gl gk nucleus coord else Ok 0%float);
            t3 ← (if n3 then nuclear_deriv_op_primitives gk gl nucleus coord
                  else Ok 0%float);
            Ok (sum + get_norm gk * get_norm gl *
                      get_coefficient gk * get_coefficient gl * (t1 + t2 + t3))%float)
            (gtos cgf2) sum)
          (gtos cgf1) 0%float;
  Ok (sum * double_of_Z charge)%float.

(** [Integrator::fact_ratio2], [B0], [fB] and [B_term]. *)
Definition fact_ratio2 (a b : Z) : float :=
  (factorial (wrap32 a) / factorial (wrap32 b) /
   factorial (wrap32 (int_sub a (int_mul 2 b))))%float.

Definition B0 (i r : Z) (g : float) : float :=
  (fact_ratio2 i r * libm_pow (4 * g) (double_of_Z (int_sub r i)))%float.

Definition fB (i l1 l2 : Z) (p a b : float) (r : Z) (g : float) : float :=
  (binomial_prefactor i l1 l2 (p - a) (p - b) * B0 i r g)%float.

Definition B_term (i1 i2 r1 r2 u l1 l2 l3 l4 : Z)
    (px ax bx qx cx dx gamma1 gamma2 delta : float) : float :=
  let e := int_sub (int_add i1 i2) (int_mul 2 (int_add r1 r2)) in
  (fB i1 l1 l2 px ax bx r1 gamma1 *
   libm_pow (-1) (double_of_Z i2) * fB i2 l3 l4 qx cx dx r2 gamma2 *
   libm_pow (-1) (double_of_Z u) * fact_ratio2 e u *
   libm_pow (qx - px) (double_of_Z (int_sub e (int_mul 2 u))) /
   libm_pow delta (double_of_Z (int_sub e u)))%float.

(** [Integrator::B_array]. *)
Definition B_array (l1 l2 l3 l4 : Z) (p a b q c d g1 g2 delta : float)
    : outcome (list float) :=
  let imax := int_add (int_add (int_add (int_add l1 l2) l3) l4) 1 in
  arrB ← vec_new imax 0%float;
  for_loop (Z.to_nat (int_add (int_add l1 l2) 1)) 0 (fun i1 =>
    for_loop (Z.to_nat (int_add (int_add l3 l4) 1)) 0 (fun i2 =>
      for_loop (Z.to_nat (int_add (i1 ÷ 2) 1)) 0 (fun r1 =>
        for_loop (Z.to_nat (int_add (i2 ÷ 2) 1)) 0 (fun r2 =>
          for_loop
            (Z.to_nat (int_add (int_sub (int_sub (int_add i1 i2 ÷ 2) r1) r2) 1)) 0
            (fun u arrB =>
               let i := int_sub (int_sub (int_add i1 i2)
                                         (int_mul 2 (int_add r1 r2))) u in
               x ← vec_get arrB i;
               vec_set arrB i
                 (x + B_term i1 i2 r1 r2 u l1 l2 l3 l4 p a b q c d g1 g2 delta)%float)))))
    arrB.

(** [Integrator::repulsion] on centres, angular momenta and exponents. *)
Definition repulsion (a : vec3) (la ma na : Z) (alphaa : float)
    (b : vec3) (lb mb nb : Z) (alphab : float)
    (c : vec3) (lc mc nc : Z) (alphac : float)
    (d : vec3) (ld md nd : Z) (alphad : float) : outcome float :=
  let rab2 := squaredNorm (vec3_sub a b) in
  let rcd2 := squaredNorm (vec3_sub c d) in
  let p := gaussian_product_center alphaa a alphab b in
  let q := gaussian_product_center alphac c alphad d in
  let rpq2 := squaredNorm (vec3_sub p q) in
  let gamma1 := (alphaa + alphab)%float in
  let gamma2 := (alphac + alphad)%float in
  let delta := (0.25 * (1 / gamma1 + 1 / gamma2))%float in
  bx ← B_array la lb lc ld (vec3_x p) (vec3_x a) (vec3_x b)
         (vec3_x q) (vec3_x c) (vec3_x d) gamma1 gamma2 delta;
  by_ ← B_array ma mb mc md (vec3_y p) (vec3_y a) (vec3_y b)
          (vec3_y q) (vec3_y c) (vec3_y d) gamma1 gamma2 delta;
  bz ← B_array na nb nc nd (vec3_z p) (vec3_z a) (vec3_z b)
         (vec3_z q) (vec3_z c) (vec3_z d) gamma1 gamma2 delta;
  sum ← for_upto (int_add (int_add (int_add la lb) lc) ld) (fun i =>
          for_upto (int_add (int_add (int_add ma mb) mc) md) (fun j =>
            for_upto (int_add (int_add (int_add na nb) nc) nd) (fun k sum =>
              xi ← vec_get bx i;
              yj ← vec_get by_ j;
              zk ← vec_get bz k;
              Ok (sum + xi * yj * zk *
                        Fgamma (int_add (int_add i j) k) (0.25 * rpq2 / delta))%float)))
          0%float;
  Ok (2 * libm_pow pi_repulsion 2.5 /
      (gamma1 * gamma2 * sqrt (gamma1 + gamma2)) *
      libm_exp (- alphaa * alphab * rab2 / gamma1) *
      libm_exp (- alphac * alphad * rcd2 / gamma2) * sum)%float.

(** [Integrator::repulsion] on four primitives. *)
Definition repulsion_primitives (gto1 gto2 gto3 gto4 : GTO) : outcome float :=
  repulsion
    (get_position gto1) (to_int (get_l gto1)) (to_int (get_m gto1))
    (to_int (get_n gto1)) (get_alpha gto1)
    (get_position gto2) (to_int (get_l gto2)) (to_int (get_m gto2))
    (to_int (get_n gto2)) (get_alpha gto2)
    (get_position gto3) (to_int (get_l gto3)) (to_int (get_m gto3))
    (to_int (get_n gto3)) (get_alpha gto3)
    (get_position gto4) (to_int (get_l gto4)) (to_int (get_m gto4))
    (to_int (get_n gto4)) (get_alpha gto4).

End GammaKernels.

(** ** [Integrator::init] *)

(** The members [init] assigns, each a string (their declarations are in
    integrals.h, which is not among the sources). *)
Record build_info : Type := mkBuildInfo {
  compile_date : string;
  compile_time : string;
  openmp_version : string;
  compiler_version : string;
  compiler_type : string
}.

(** The predefined macros [init] is compiled under: [__DATE__],
    [__TIME__], [__VERSION__] when [__GNUC__] is defined, [_OPENMP] when
    it is defined, and [_MSC_FULL_VER] when [_MSC_VER] is defined. *)
Record macros : Type := mkMacros {
  DATE : string;
  TIME : string;
  GNUC : option string;
  OPENMP : option Z;
  MSC_FULL_VER : option Z
}.

(** The exception of [std::unordered_map::at] on a missing key; its
    message is the standard library's, the outcome carries the name of
    its type. *)
Definition out_of_range : string := "std::out_of_range".

(** The table of OpenMP release dates in [init]. *)
Definition openmp_versions : gmap Z string :=
  list_to_map
    [(200505, "2.5"); (200805, "3.0"); (201107, "3.1"); (201307, "4.0");
     (201511, "4.5"); (201811, "5.0"); (202011, "5.1")]%string.

(** [map.at(key)], the key converted to [unsigned int]. *)
Definition map_at (m : gmap Z string) (key : Z) : outcome string :=
  match m !! wrap32 key with
  | Some v => Ok v
  | None => Throw out_of_range
  end.

(** [Integrator::init] under a set of macros: [None] where the function
    does not compile ([_MSC_VER] defined and [_OPENMP] not). *)
Definition init (m : macros) (this : build_info) : option (outcome build_info) :=
  let this :=
    mkBuildInfo (DATE m) (TIME m) (openmp_version this) (compiler_version this)
                (compiler_type this) in
  let gnu : outcome build_info :=
    match GNUC m with
    | Some version =>
        match OPENMP m with
        | None =>
            Ok (mkBuildInfo (compile_date this) (compile_time this)
                  "NONE" "N/A" "GNU/GCC")
        | Some date =>
            v ← map_at openmp_versions date;
            Ok (mkBuildInfo (compile_date this) (compile_time this)
                  v version "GNU/GCC")
        end
    | None =>
        Ok (mkBuildInfo (compile_date this) (compile_time this)
              "unknown" "unknown" (compiler_type this))
    end in
  match MSC_FULL_VER m with
  | None => Some gnu
  | Some full_ver =>
      match OPENMP m with
      | None => None
      | Some date =>
          Some (this ← gnu;
                Ok (mkBuildInfo (compile_date this) (compile_time this)
                      (pretty date) (pretty full_ver) "MSVC"))
      end
  end.

(** ** The declared interface *)

(** A call of [teindex] through its declaration in the Cython interface
    of src/unnamed/part_000, [int teindex(int, int, int, int)]: the [int]
    arguments are converted to [size_t] and the key is converted to
    [int]. *)
Definition teindex_declared (i j k l : Z) : Z :=
  to_int (teindex (wrap64 i) (wrap64 j) (wrap64 k) (wrap64 l)).

(** * Verification *)

(** ** Machine integers without wrap-around *)

Section MachineIntegers.

Lemma wrap64_small z : 0 <= z < 2 ^ 64 -> wrap64 z = z.
Proof. intros H. unfold wrap64. now apply Z.mod_small. Qed.

Lemma wrap64_range z : 0 <= wrap64 z < 2 ^ 64.
Proof. unfold wrap64. apply Z.mod_pos_bound. lia. Qed.

Lemma wrap32_small z : 0 <= z < 2 ^ 32 -> wrap32 z = z.
Proof. intros H. unfold wrap32. now apply Z.mod_small. Qed.

Lemma to_int_small z : - 2 ^ 31 <= z < 2 ^ 31 -> to_int z = z.
Proof.
  intros H. unfold to_int, wrap32.
  destruct (Z.neg_nonneg_cases z) as [Hn | Hp].
  - assert (E : z mod 2 ^ 32 = z + 2 ^ 32).
    { symmetry. apply (Z.mod_unique_pos _ _ (-1)); lia. }
    rewrite E. destruct (Z.ltb_spec (z + 2 ^ 32) (2 ^ 31)); lia.
  - rewrite Z.mod_small by lia.
    destruct (Z.ltb_spec z (2 ^ 31)); lia.
Qed.

End MachineIntegers.

(** ** The compound index *)

(** The compound index [a*(a+1)/2 + b] as [size_t] arithmetic computes it. *)
Definition tri (a b : Z) : Z := size_add (size_mul a (size_add a 1) / 2) b.

(** The canonical key in the words of the specification, over the
    integers: order each pair, form the compound indices, order them, and
    form the compound index of the two. *)
Definition canonical_key (i j k l : Z) : Z :=
  let i' := Z.max i j in let j' := Z.min i j in
  let k' := Z.max k l in let l' := Z.min k l in
  let ij := i' * (i' + 1) / 2 + j' in
  let kl := k' * (k' + 1) / 2 + l' in
  let p := Z.max ij kl in let q := Z.min ij kl in
  p * (p + 1) / 2 + q.

(** The largest basis-set size whose indices never wrap in [teindex]. *)
Definition max_basis : Z := 92681.

Section CompoundIndex.

Lemma half_mono a b : 0 <= a <= b -> a * (a + 1) / 2 <= b * (b + 1) / 2.
Proof. intros H. apply Z.div_le_mono; nia. Qed.

Lemma half_nonneg a : 0 <= a -> 0 <= a * (a + 1) / 2.
Proof. intros H. apply Z.div_pos; nia. Qed.

(** Twice the triangular number, exactly. *)
Lemma half_double a : 2 * (a * (a + 1) / 2) = a * (a + 1).
Proof.
  assert (E : (a * (a + 1)) mod 2 = 0).
  { rewrite Z.mul_mod by lia.
    assert (C : a mod 2 = 0 \/ a mod 2 = 1) by (pose proof (Z.mod_pos_bound a 2); lia).
    destruct C as [C | C].
    - rewrite C. reflexivity.
    - assert (C' : (a + 1) mod 2 = 0).
      { rewrite Z.add_mod by lia. rewrite C. reflexivity. }
      rewrite C'. rewrite Z.mul_0_r. reflexivity. }
  pose proof (Z.div_mod (a * (a + 1)) 2). lia.
Qed.

Lemma half_succ a : (a + 1) * (a + 1 + 1) / 2 = a * (a + 1) / 2 + (a + 1).
Proof.
  pose proof (half_double a). pose proof (half_double (a + 1)). nia.
Qed.

(** Without wrap-around [tri] is the compound index over the integers. *)
Lemma tri_exact a b :
  0 <= a < 2 ^ 32 -> 0 <= b < 2 ^ 32 -> tri a b = a * (a + 1) / 2 + b.
Proof.
  intros Ha Hb. unfold tri, size_add, size_mul.
  rewrite (wrap64_small (a + 1)) by lia.
  assert (Hm : 0 <= a * (a + 1) < 2 ^ 64) by nia.
  rewrite (wrap64_small (a * (a + 1))) by exact Hm.
  apply wrap64_small.
  pose proof (half_double a). lia.
Qed.

(** Pairs drawn from a basis of at most [max_basis] functions have a
    compound index below [2^32]. *)
Lemma pair_bound n a b :
  n <= max_basis -> 0 <= b <= a -> a < n ->
  0 <= a * (a + 1) / 2 + b <= (n - 1) * (n - 1 + 1) / 2 + (n - 1) /\
  (n - 1) * (n - 1 + 1) / 2 + (n - 1) < 2 ^ 32.
Proof.
  unfold max_basis. intros Hn Hb Ha.
  pose proof (half_mono a (n - 1) ltac:(lia)).
  pose proof (half_nonneg a ltac:(lia)).
  pose proof (half_mono (n - 1) 92680 ltac:(lia)).
  change (92680 * (92680 + 1) / 2) with 4294837540 in *.
  lia.
Qed.

Lemma teindex_tri i j k l :
  teindex i j k l =
  tri (Z.max (tri (Z.max i j) (Z.min i j)) (tri (Z.max k l) (Z.min k l)))
      (Z.min (tri (Z.max i j) (Z.min i j)) (tri (Z.max k l) (Z.min k l))).
Proof.
  unfold teindex, tri.
  destruct (Z.ltb_spec i j);
    [rewrite (Z.max_r i j), (Z.min_l i j) by lia
    | rewrite (Z.max_l i j), (Z.min_r i j) by lia];
  (destruct (Z.ltb_spec k l);
    [rewrite (Z.max_r k l), (Z.min_l k l) by lia
    | rewrite (Z.max_l k l), (Z.min_r k l) by lia]);
  match goal with
  | |- context [if ?a <? ?b then _ else _] =>
      destruct (Z.ltb_spec a b);
        [rewrite (Z.max_r a b), (Z.min_l a b) by lia
        | rewrite (Z.max_l a b), (Z.min_r a b) by lia]
  end; reflexivity.
Qed.

Lemma teindex_swap_bra i j k l : teindex i j k l = teindex j i k l.
Proof. rewrite !teindex_tri, (Z.max_comm j i), (Z.min_comm j i). reflexivity. Qed.

Lemma teindex_swap_ket i j k l : teindex i j k l = teindex i j l k.
Proof. rewrite !teindex_tri, (Z.max_comm l k), (Z.min_comm l k). reflexivity. Qed.

Lemma teindex_swap_pairs i j k l : teindex i j k l = teindex k l i j.
Proof.
  rewrite !teindex_tri.
  rewrite (Z.max_comm (tri (Z.max k l) (Z.min k l))).
  rewrite (Z.min_comm (tri (Z.max k l) (Z.min k l))).
  reflexivity.
Qed.

(** Below [max_basis] the code computes the specification's key. *)
Lemma teindex_canonical n i j k l :
  n <= max_basis ->
  0 <= i < n -> 0 <= j < n -> 0 <= k < n -> 0 <= l < n ->
  teindex i j k l = canonical_key i j k l.
Proof.
  intros Hn Hi Hj Hk Hl. rewrite teindex_tri. unfold canonical_key.
  destruct (pair_bound n (Z.max i j) (Z.min i j)) as [B1 B2]; [lia .. |].
  destruct (pair_bound n (Z.max k l) (Z.min k l)) as [B3 _]; [lia .. |].
  rewrite (tri_exact (Z.max i j) (Z.min i j)) by (unfold max_basis in *; lia).
  rewrite (tri_exact (Z.max k l) (Z.min k l)) by (unfold max_basis in *; lia).
  apply tri_exact; lia.
Qed.

(** The key of the last quadruple, without wrap-around. *)
Lemma teindex_top n :
  1 <= n <= max_basis ->
  let m := (n - 1) * (n - 1 + 1) / 2 + (n - 1) in
  teindex (n - 1) (n - 1) (n - 1) (n - 1) = m * (m + 1) / 2 + m /\
  m < 2 ^ 32.
Proof.
  intros Hn m.
  rewrite (teindex_canonical n) by lia.
  unfold canonical_key. rewrite !Z.max_id, !Z.min_id. fold m.
  split; [reflexivity |].
  destruct (pair_bound n (n - 1) (n - 1)) as [_ B]; [lia .. |]. exact B.
Qed.

(** Monotonicity: no key of a basis of [n <= max_basis] functions exceeds
    the key of [(n-1, n-1, n-1, n-1)]. *)
Lemma teindex_le_top n i j k l :
  1 <= n <= max_basis ->
  0 <= i < n -> 0 <= j < n -> 0 <= k < n -> 0 <= l < n ->
  0 <= teindex i j k l <= teindex (n - 1) (n - 1) (n - 1) (n - 1).
Proof.
  intros Hn Hi Hj Hk Hl.
  destruct (teindex_top n Hn) as [-> Hm].
  rewrite (teindex_canonical n) by lia. unfold canonical_key.
  destruct (pair_bound n (Z.max i j) (Z.min i j)) as [B1 _]; [lia .. |].
  destruct (pair_bound n (Z.max k l) (Z.min k l)) as [B3 _]; [lia .. |].
  set (ij := Z.max i j * (Z.max i j + 1) / 2 + Z.min i j) in *.
  set (kl := Z.max k l * (Z.max k l + 1) / 2 + Z.min k l) in *.
  set (m := (n - 1) * (n - 1 + 1) / 2 + (n - 1)) in *.
  pose proof (half_mono (Z.max ij kl) m ltac:(lia)).
  pose proof (half_nonneg (Z.max ij kl) ltac:(lia)).
  lia.
Qed.

End CompoundIndex.

(** ** Reasoning about loops *)

Section Loops.

Context {St : Type}.

Lemma for_loop_foldM n lo (body : Z -> St -> outcome St) s :
  for_loop n lo body s = foldM body (seqZ lo (Z.of_nat n)) s.
Proof.
  revert lo s. induction n as [| n IH]; intros lo s.
  - reflexivity.
  - rewrite seqZ_cons by lia.
    replace (Z.pred (Z.of_nat (S n))) with (Z.of_nat n) by lia.
    replace (Z.succ lo) with (lo + 1) by lia.
    simpl. destruct (body lo s) as [s' | w |]; simpl; [apply IH | reflexivity ..].
Qed.

Lemma for_loop_seqZ n lo (body : Z -> St -> outcome St) s :
  for_loop (Z.to_nat n) lo body s = foldM body (seqZ lo n) s.
Proof.
  rewrite for_loop_foldM. unfold seqZ. rewrite Nat2Z.id. reflexivity.
Qed.

Lemma foldM_ext {A} (f g : A -> St -> outcome St) l s :
  (forall x s, x ∈ l -> f x s = g x s) -> foldM f l s = foldM g l s.
Proof.
  revert s. induction l as [| x l IH]; intros s H; [reflexivity |].
  simpl. rewrite (H x s) by left.
  destruct (g x s); simpl; [| reflexivity ..].
  apply IH. intros y s' Hy. apply H. now right.
Qed.

Lemma foldM_app {A} (f : A -> St -> outcome St) l1 l2 s :
  foldM f (l1 ++ l2) s = (s' ← foldM f l1 s; foldM f l2 s').
Proof.
  revert s. induction l1 as [| x l1 IH]; intros s; [reflexivity |].
  simpl. destruct (f x s); simpl; [apply IH | reflexivity ..].
Qed.

(** A loop nest is one loop over the list of its iterations. *)
Lemma foldM_bind {A B} (f : B -> St -> outcome St) (g : A -> list B) l s :
  foldM f (l ≫= g) s = foldM (fun x => foldM f (g x)) l s.
Proof.
  revert s. induction l as [| x l IH]; intros s; [reflexivity |].
  rewrite bind_cons, foldM_app. simpl.
  destruct (foldM f (g x) s); simpl; [apply IH | reflexivity ..].
Qed.

(** The invariant rule: [Inv] relates the iterations done to the state,
    [Bad] holds of an iteration that throws, [Und] whenever behaviour is
    undefined. *)
Lemma foldM_spec {A} (f : A -> St -> outcome St)
    (Inv : list A -> St -> Prop) (Bad : A -> string -> Prop) (Und : Prop) l :
  (forall pre x post s, l = pre ++ x :: post -> Inv pre s ->
     match f x s with
     | Ok s' => Inv (pre ++ [x]) s'
     | Throw w => Bad x w
     | Undefined => Und
     end) ->
  forall s, Inv [] s ->
    match foldM f l s with
    | Ok s' => Inv l s'
    | Throw w => exists x, x ∈ l /\ Bad x w
    | Undefined => Und
    end.
Proof.
  intros Hstep.
  assert (G : forall rest pre s, l = pre ++ rest -> Inv pre s ->
            match foldM f rest s with
            | Ok s' => Inv l s'
            | Throw w => exists x, x ∈ rest /\ Bad x w
            | Undefined => Und
            end).
  { induction rest as [| x rest IH]; intros pre s E HI.
    - simpl. rewrite app_nil_r in E. now subst l.
    - simpl. specialize (Hstep pre x rest s E HI) as Hx.
      destruct (f x s) as [s' | w |]; simpl.
      + assert (E' : l = (pre ++ [x]) ++ rest) by (rewrite <- app_assoc; exact E).
        specialize (IH (pre ++ [x]) s' E' Hx).
        destruct (foldM f rest s') as [s'' | w |]; [exact IH | | exact IH].
        destruct IH as (y & Hy & Hb). exists y. split; [now right | exact Hb].
      + exists x. split; [left | exact Hx].
      + exact Hx. }
  intros s HI. apply (G l [] s); [reflexivity | exact HI].
Qed.

(** An iteration of a counting loop knows its number. *)
Lemma seqZ_split lo n pre x post :
  seqZ lo n = pre ++ x :: post -> x = lo + Z.of_nat (length pre) /\ lo <= x < lo + n.
Proof.
  intros E.
  assert (H : seqZ lo n !! length pre = Some x).
  { rewrite E. rewrite lookup_app_r by lia. now rewrite Nat.sub_diag. }
  apply lookup_seqZ in H. lia.
Qed.

End Loops.

(** ** The job list *)

Section JobList.

(** The iterations of the fourfold loop, in program order. *)
Definition quad : Type := Z * Z * Z * Z.

Definition quads (sz : Z) : list quad :=
  i ← seqZ 0 sz; j ← seqZ 0 sz; k ← seqZ 0 sz; l ← seqZ 0 sz; [(i, j, k, l)].

Definition key (q : quad) : Z := let '(i, j, k, l) := q in teindex i j k l.

(** The test [ij <= kl] of the loop body. *)
Definition selected (q : quad) : Prop :=
  let '(i, j, k, l) := q in tri i j <= tri k l.

Definition job_step (q : quad) : job_state -> outcome job_state :=
  let '(i, j, k, l) := q in job_body i j k l.

Definition job_quad (jb : job) : quad := (job_i jb, job_j jb, job_k jb, job_l jb).

Lemma elem_of_quads sz i j k l :
  (i, j, k, l) ∈ quads sz <->
  0 <= i < sz /\ 0 <= j < sz /\ 0 <= k < sz /\ 0 <= l < sz.
Proof.
  unfold quads. rewrite list_elem_of_bind. split.
  - intros (i' & H & Hi). apply list_elem_of_bind in H as (j' & H & Hj).
    apply list_elem_of_bind in H as (k' & H & Hk).
    apply list_elem_of_bind in H as (l' & H & Hl).
    apply list_elem_of_singleton in H. inversion H; subst.
    apply elem_of_seqZ in Hi, Hj, Hk, Hl. lia.
  - intros (Hi & Hj & Hk & Hl). exists i. split; [| apply elem_of_seqZ; lia].
    apply list_elem_of_bind. exists j. split; [| apply elem_of_seqZ; lia].
    apply list_elem_of_bind. exists k. split; [| apply elem_of_seqZ; lia].
    apply list_elem_of_bind. exists l. split; [| apply elem_of_seqZ; lia].
    apply list_elem_of_singleton. reflexivity.
Qed.

Lemma foldM_singleton {A St} (f : A -> St -> outcome St) x s :
  foldM f [x] s = f x s.
Proof. simpl. destruct (f x s); reflexivity. Qed.

Lemma build_jobs_quads sz st : build_jobs sz st = foldM job_step (quads sz) st.
Proof.
  unfold build_jobs, quads.
  rewrite for_loop_seqZ, foldM_bind. apply foldM_ext. intros i s1 _.
  rewrite for_loop_seqZ, foldM_bind. apply foldM_ext. intros j s2 _.
  rewrite for_loop_seqZ, foldM_bind. apply foldM_ext. intros k s3 _.
  rewrite for_loop_seqZ, foldM_bind. apply foldM_ext. intros l s4 _.
  rewrite foldM_singleton. reflexivity.
Qed.

Lemma teindex_range i j k l : 0 <= teindex i j k l < 2 ^ 64.
Proof. rewrite teindex_tri. apply wrap64_range. Qed.

(** The invariant of the job loop for a [tedouble] of [n] doubles: the
    marked slots are the keys of the jobs, no key has two jobs, every job
    comes from a selected iteration, and every selected iteration done
    has its key among the jobs. *)
Definition job_inv (n : nat) (done : list quad) (st : job_state) : Prop :=
  let '(te, jobs) := st in
  length te = n /\
  (forall m, (m < n)%nat ->
     te !! m = Some (if bool_decide (Z.of_nat m ∈ job_idx <$> jobs)
                     then 1%float else (-1)%float)) /\
  NoDup (job_idx <$> jobs) /\
  (forall jb, jb ∈ jobs ->
     job_quad jb ∈ done /\ selected (job_quad jb) /\
     job_idx jb = key (job_quad jb) /\ 0 <= job_idx jb < Z.of_nat n) /\
  (forall q, q ∈ done -> selected q -> key q ∈ job_idx <$> jobs /\ key q < Z.of_nat n).

Lemma job_step_spec n pre q st :
  job_inv n pre st ->
  match job_step q st with
  | Ok st' => job_inv n (pre ++ [q]) st'
  | Throw w => w = illegal_position /\ selected q /\ Z.of_nat n <= key q
  | Undefined => False
  end.
Proof.
  destruct q as [[[i j] k] l]. destruct st as [te jobs].
  intros (Hlen & Hte & Hnd & Hjobs & Hdone).
  unfold job_step, job_body. fold (tri i j) (tri k l).
  assert (Hkeep : job_inv n (pre ++ [(i, j, k, l)]) (te, jobs) \/ tri i j <= tri k l).
  { destruct (Z.le_gt_cases (tri i j) (tri k l)) as [Hs | Hs]; [now right | left].
    repeat split; try assumption.
    - destruct (Hjobs jb H) as (H1 & _). apply elem_of_app. now left.
    - apply Hjobs; assumption.
    - apply Hjobs; assumption.
    - apply Hjobs; assumption.
    - apply Hjobs; assumption.
    - apply elem_of_app in H as [H | H]; [now apply Hdone |].
      apply list_elem_of_singleton in H. subst q. simpl in H0. lia.
    - apply elem_of_app in H as [H | H]; [now apply Hdone |].
      apply list_elem_of_singleton in H. subst q. simpl in H0. lia. }
  destruct (Z.leb_spec (tri i j) (tri k l)) as [Hsel | Hsel].
  2: { destruct Hkeep as [Hk | Hk]; [exact Hk | lia]. }
  clear Hkeep.
  pose proof (teindex_range i j k l) as Hrange.
  destruct (Z.leb_spec (Z.of_nat (length te)) (teindex i j k l)) as [Hbig | Hsmall].
  { simpl. rewrite <- Hlen. auto. }
  unfold vec_get.
  replace ((0 <=? teindex i j k l) && (teindex i j k l <? Z.of_nat (length te)))
    with true by (symmetry; apply andb_true_intro; split; [apply Z.leb_le | apply Z.ltb_lt]; lia).
  assert (Hm : (Z.to_nat (teindex i j k l) < n)%nat) by lia.
  rewrite (Hte _ Hm). rewrite Z2Nat.id by lia. simpl.
  destruct (bool_decide_reflect (teindex i j k l ∈ job_idx <$> jobs)) as [Hin | Hnin].
  - (* already marked *)
    change ((1 <? 0)%float) with false. cbv iota.
    repeat split; try assumption.
    + destruct (Hjobs jb H) as (H1 & _). apply elem_of_app. now left.
    + apply Hjobs; assumption.
    + apply Hjobs; assumption.
    + apply Hjobs; assumption.
    + apply Hjobs; assumption.
    + apply elem_of_app in H as [H | H]; [now apply Hdone |].
      apply list_elem_of_singleton in H. subst q. exact Hin.
    + apply elem_of_app in H as [H | H]; [now apply Hdone |].
      apply list_elem_of_singleton in H. subst q. simpl. lia.
  - (* first time seen *)
    change ((-1 <? 0)%float) with true. cbv iota.
    unfold vec_set.
    replace ((0 <=? teindex i j k l) && (teindex i j k l <? Z.of_nat (length te)))
      with true by (symmetry; apply andb_true_intro; split; [apply Z.leb_le | apply Z.ltb_lt]; lia).
    simpl. rewrite fmap_app. simpl.
    split; [rewrite length_insert; exact Hlen |].
    split.
    { intros m Hmn. destruct (decide (m = Z.to_nat (teindex i j k l))) as [-> | Hne].
      - rewrite list_lookup_insert_eq by lia. rewrite Z2Nat.id by lia.
        rewrite bool_decide_eq_true_2; [reflexivity |].
        apply elem_of_app. right. apply list_elem_of_singleton. reflexivity.
      - rewrite list_lookup_insert_ne by congruence. rewrite (Hte _ Hmn).
        rewrite (bool_decide_ext (Z.of_nat m ∈ (job_idx <$> jobs) ++ [teindex i j k l])
                   (Z.of_nat m ∈ job_idx <$> jobs)); [reflexivity |].
        rewrite elem_of_app, list_elem_of_singleton. split; [| tauto].
        intros [H | H]; [exact H | lia]. }
    split.
    { apply NoDup_app. split; [exact Hnd |]. split.
      - intros x Hx Hx'. apply list_elem_of_singleton in Hx'. subst x. contradiction.
      - apply NoDup_singleton. }
    split.
    { intros jb Hjb. apply elem_of_app in Hjb as [Hjb | Hjb].
      - destruct (Hjobs jb Hjb) as (H1 & H2 & H3 & H4).
        repeat split; try assumption; try lia. apply elem_of_app. now left.
      - apply list_elem_of_singleton in Hjb. subst jb. unfold job_quad. simpl.
        repeat split; try lia. apply elem_of_app. right.
        apply list_elem_of_singleton. reflexivity. }
    intros q Hq Hsq. apply elem_of_app in Hq as [Hq | Hq].
    + destruct (Hdone q Hq Hsq) as [H1 H2]. split; [| exact H2].
      apply elem_of_app. now left.
    + apply list_elem_of_singleton in Hq. subst q. split; [| simpl; lia].
      apply elem_of_app. right. apply list_elem_of_singleton. reflexivity.
Qed.

End JobList.

(** ** Every slot below a compound index is a compound index *)

Section Surjectivity.

(** The triangular number modulo [2^63], which is what the wrapping
    product followed by the division by two leaves. *)
Definition tmod (a : Z) : Z := (a * (a + 1) / 2) mod 2 ^ 63.

Lemma tri_tmod a b : tri a b = (tmod a + b) mod 2 ^ 64.
Proof.
  unfold tri, tmod, size_add, size_mul, wrap64.
  rewrite Z.mul_mod_idemp_r by lia.
  rewrite <- (half_double a) at 1.
  change (2 ^ 64) with (2 * 2 ^ 63) at 1.
  rewrite Z.mul_mod_distr_l by lia.
  rewrite (Z.mul_comm 2), Z.div_mul by lia.
  reflexivity.
Qed.

Lemma tmod_range a : 0 <= tmod a < 2 ^ 63.
Proof. unfold tmod. apply Z.mod_pos_bound. lia. Qed.

Lemma tmod_succ_le a : 0 <= a -> tmod (a + 1) <= tmod a + a + 1.
Proof.
  intros Ha. pose proof (tmod_range a) as Hr. unfold tmod in *.
  rewrite half_succ. rewrite <- Z.add_mod_idemp_l by lia.
  rewrite <- Z.add_assoc. apply Z.mod_le; lia.
Qed.

(** The compound indices of the pairs [b <= a <= m] fill an initial
    segment of the integers, wrap-around included. *)
Lemma tri_reach m :
  0 <= m -> m < 2 ^ 64 ->
  forall v, 0 <= v <= Z.min (tmod m + m) (2 ^ 64 - 1) ->
  exists a b, 0 <= b <= a /\ a <= m /\ tri a b = v.
Proof.
  intros Hm. pattern m. apply natlike_ind; [| | exact Hm]; clear m Hm.
  - intros _ v Hv. change (tmod 0) with 0 in Hv.
    exists 0, 0. split; [lia |]. split; [lia |].
    assert (v = 0) by lia. subst v. reflexivity.
  - intros m Hm IH Hlt v Hv.
    replace (Z.succ m) with (m + 1) in * by lia.
    destruct (Z.le_gt_cases v (Z.min (tmod m + m) (2 ^ 64 - 1))) as [Hle | Hgt].
    + destruct (IH ltac:(lia) v ltac:(lia)) as (a & b & Hab & Ham & E).
      exists a, b. repeat split; lia.
    + pose proof (tmod_succ_le m Hm) as Hs.
      pose proof (tmod_range (m + 1)) as Hr.
      exists (m + 1), (v - tmod (m + 1)).
      split; [lia |]. split; [lia |].
      rewrite tri_tmod.
      replace (tmod (m + 1) + (v - tmod (m + 1))) with v by lia.
      apply Z.mod_small. lia.
Qed.

Lemma tri_le_reach m b0 :
  0 <= b0 <= m -> m < 2 ^ 64 ->
  tri m b0 <= Z.min (tmod m + m) (2 ^ 64 - 1).
Proof.
  intros Hb Hm. rewrite tri_tmod.
  pose proof (tmod_range m) as Hr.
  pose proof (Z.mod_pos_bound (tmod m + b0) (2 ^ 64) ltac:(lia)) as Hw.
  destruct (Z.lt_ge_cases (tmod m + b0) (2 ^ 64)) as [Hs | Hs].
  - rewrite Z.mod_small by lia. lia.
  - lia.
Qed.

(** Every value up to the compound index of [(m, b0)] is the compound
    index of some pair [b <= a <= m]. *)
Lemma tri_below m b0 v :
  0 <= b0 <= m -> m < 2 ^ 64 -> 0 <= v <= tri m b0 ->
  exists a b, 0 <= b <= a /\ a <= m /\ tri a b = v.
Proof.
  intros Hb Hm Hv. apply (tri_reach m); [lia | exact Hm |].
  pose proof (tri_le_reach m b0 Hb Hm). lia.
Qed.

Lemma tri_range a b : 0 <= tri a b < 2 ^ 64.
Proof. apply wrap64_range. Qed.

(** [teindex] on its canonical arguments. *)
Lemma teindex_ordered i j k l :
  j <= i -> l <= k -> tri k l <= tri i j ->
  teindex i j k l = tri (tri i j) (tri k l).
Proof.
  intros Hji Hlk Hle. rewrite teindex_tri.
  rewrite (Z.max_l i j), (Z.min_r i j), (Z.max_l k l), (Z.min_r k l) by lia.
  rewrite Z.max_l, Z.min_r by lia. reflexivity.
Qed.

Lemma teindex_diag m : teindex m m m m = tri (tri m m) (tri m m).
Proof. apply teindex_ordered; lia. Qed.

(** The selected quadruples of a basis of [sz] functions reach every
    slot up to the key of [(sz-1, sz-1, sz-1, sz-1)]. *)
Lemma teindex_onto sz v :
  1 <= sz < 2 ^ 64 ->
  0 <= v <= teindex (sz - 1) (sz - 1) (sz - 1) (sz - 1) ->
  exists i j k l,
    0 <= i < sz /\ 0 <= j < sz /\ 0 <= k < sz /\ 0 <= l < sz /\
    tri i j <= tri k l /\ teindex i j k l = v.
Proof.
  intros Hsz Hv. rewrite teindex_diag in Hv.
  pose proof (tri_range (sz - 1) (sz - 1)) as HM.
  destruct (tri_below (tri (sz - 1) (sz - 1)) (tri (sz - 1) (sz - 1)) v)
    as (a & b & Hab & Ha & E); [lia | lia | exact Hv |].
  destruct (tri_below (sz - 1) (sz - 1) a) as (i & j & Hij & Hi & Ea); [lia .. |].
  destruct (tri_below (sz - 1) (sz - 1) b) as (k & l & Hkl & Hk & Eb); [lia .. |].
  exists k, l, i, j. repeat split; try lia.
  rewrite teindex_swap_pairs, teindex_ordered by lia.
  rewrite Ea, Eb. exact E.
Qed.

End Surjectivity.

(** ** What the job loop returns *)

Section JobListResults.

Lemma te_size_range sz : 0 <= te_size sz < 2 ^ 64.
Proof. apply wrap64_range. Qed.

Lemma te_size_top sz :
  1 <= sz <= max_basis ->
  te_size sz = teindex (sz - 1) (sz - 1) (sz - 1) (sz - 1) + 1.
Proof.
  intros Hsz. unfold te_size, size_sub.
  rewrite (wrap64_small (sz - 1)) by (unfold max_basis in Hsz; lia).
  destruct (teindex_top sz Hsz) as [E Hm]. cbv zeta in E, Hm.
  unfold size_add. apply wrap64_small. rewrite E.
  set (m := (sz - 1) * (sz - 1 + 1) / 2 + (sz - 1)) in *.
  assert (0 <= m).
  { destruct (pair_bound sz (sz - 1) (sz - 1)) as [B _]; lia. }
  pose proof (half_double m). nia.
Qed.

Lemma job_inv_init n : job_inv n [] (replicate n (-1)%float, []).
Proof.
  unfold job_inv. split; [apply length_replicate |].
  split; [intros m Hm; rewrite lookup_replicate_2 by exact Hm; reflexivity |].
  split; [constructor |].
  split; [intros jb Hjb; inversion Hjb | intros q Hq; inversion Hq].
Qed.

(** The three outcomes of building the job list. *)
Lemma two_electron_jobs_spec sz :
  match two_electron_jobs sz with
  | Ok st => job_inv (Z.to_nat (te_size sz)) (quads sz) st
  | Throw w =>
      w = illegal_position /\
      exists q, q ∈ quads sz /\ selected q /\ te_size sz <= key q
  | Undefined => False
  end.
Proof.
  unfold two_electron_jobs. rewrite build_jobs_quads.
  set (n := Z.to_nat (te_size sz)).
  pose proof (foldM_spec job_step (job_inv n)
                (fun q w => w = illegal_position /\ selected q /\ Z.of_nat n <= key q)
                False (quads sz)
                (fun pre q post st _ HI => job_step_spec n pre q st HI)
                _ (job_inv_init n)) as H.
  destruct (foldM job_step (quads sz) (replicate n (-1)%float, [])) as [st | w |].
  - exact H.
  - destruct H as (q & Hq & -> & Hs & Hk). split; [reflexivity |].
    exists q. repeat split; try assumption.
    pose proof (te_size_range sz). subst n. lia.
  - exact H.
Qed.


Lemma two_electron_jobs_ok sz :
  (forall q, q ∈ quads sz -> selected q -> key q < te_size sz) ->
  exists te jobs,
    two_electron_jobs sz = Ok (te, jobs) /\
    job_inv (Z.to_nat (te_size sz)) (quads sz) (te, jobs).
Proof.
  intros Hfit. pose proof (two_electron_jobs_spec sz) as H.
  destruct (two_electron_jobs sz) as [[te jobs] | w |].
  - exists te, jobs. split; [reflexivity | exact H].
  - destruct H as (_ & q & Hq & Hs & Hk). specialize (Hfit q Hq Hs). lia.
  - contradiction.
Qed.

(** Below [max_basis] every key fits. *)
Lemma keys_fit sz q :
  1 <= sz <= max_basis -> q ∈ quads sz -> key q < te_size sz.
Proof.
  intros Hsz Hq. destruct q as [[[i j] k] l].
  apply elem_of_quads in Hq as (Hi & Hj & Hk & Hl).
  rewrite te_size_top by exact Hsz. simpl.
  pose proof (teindex_le_top sz i j k l Hsz Hi Hj Hk Hl). lia.
Qed.

(** Every quadruple of the basis has its key among the jobs. *)
Lemma job_inv_complete n sz te jobs i j k l :
  job_inv n (quads sz) (te, jobs) ->
  0 <= i < sz -> 0 <= j < sz -> 0 <= k < sz -> 0 <= l < sz ->
  teindex i j k l ∈ job_idx <$> jobs.
Proof.
  intros (_ & _ & _ & _ & Hdone) Hi Hj Hk Hl.
  destruct (Z.le_gt_cases (tri i j) (tri k l)) as [Hs | Hs].
  - apply (Hdone (i, j, k, l)); [apply elem_of_quads; lia | exact Hs].
  - rewrite teindex_swap_pairs.
    apply (Hdone (k, l, i, j)); [apply elem_of_quads; lia | simpl; lia].
Qed.




End JobListResults.

(** ** Vector accesses within bounds *)

Section Vectors.

Context {A : Type}.

Lemma vec_get_ok (v : list A) i :
  0 <= i < Z.of_nat (length v) ->
  exists x, vec_get v i = Ok x /\ v !! Z.to_nat i = Some x.
Proof.
  intros Hi. unfold vec_get.
  replace ((0 <=? i) && (i <? Z.of_nat (length v))) with true
    by (symmetry; apply andb_true_intro; split; [apply Z.leb_le | apply Z.ltb_lt]; lia).
  destruct (lookup_lt_is_Some_2 v (Z.to_nat i) ltac:(lia)) as [x Hx].
  exists x. rewrite Hx. split; reflexivity.
Qed.

Lemma vec_set_ok (v : list A) i x :
  0 <= i < Z.of_nat (length v) -> vec_set v i x = Ok (<[Z.to_nat i := x]> v).
Proof.
  intros Hi. unfold vec_set.
  replace ((0 <=? i) && (i <? Z.of_nat (length v))) with true
    by (symmetry; apply andb_true_intro; split; [apply Z.leb_le | apply Z.ltb_lt]; lia).
  reflexivity.
Qed.

End Vectors.

Lemma to_int_le x : 0 <= x -> to_int x <= x.
Proof.
  intros Hx. unfold to_int, wrap32.
  pose proof (Z.mod_le x (2 ^ 32) Hx ltac:(lia)).
  destruct (Z.ltb_spec (x mod 2 ^ 32) (2 ^ 31)); lia.
Qed.

(** ** Matrices *)

Section Matrices.

Variable sz : Z.


Definition square (M : list float) : Prop := Z.of_nat (length M) = sz * sz.

Lemma mat_index_range a b :
  0 <= a < sz -> 0 <= b < sz -> 0 <= mat_index sz a b < sz * sz.
Proof. unfold mat_index. intros Ha Hb. nia. Qed.







(** [M(i,j) = M(j,i) = v] as the code performs it. *)
Lemma mat_set_both (M : list float) i j v :
  0 <= i < sz -> 0 <= j < sz -> square M ->
  (M' ← mat_set sz M j i v; mat_set sz M' i j v) =
  Ok (<[Z.to_nat (mat_index sz i j) := v]> (<[Z.to_nat (mat_index sz j i) := v]> M)).
Proof.
  intros Hi Hj Hsq. unfold square in Hsq. unfold mat_set.
  pose proof (mat_index_range i j Hi Hj). pose proof (mat_index_range j i Hj Hi).
  rewrite vec_set_ok by lia. simpl.
  rewrite vec_set_ok by (rewrite length_insert; lia). reflexivity.
Qed.

End Matrices.

(** ** The pair loop *)

Section PairLoop.

Context `{Lib : Library}.
Variable cgfs : list CGF.
Variable charges : list Z.
Variables px py pz : list float.

Let sz : Z := Z.of_nat (length cgfs).

















End PairLoop.

(** ** Summing the nuclear matrices *)

Section CombineNuclear.

Variable sz : Z.
Variable Vn : list (list float).










End CombineNuclear.

(** ** The three matrices *)

Section IntegralMatrices.

Context `{Lib : Library}.




End IntegralMatrices.

(** ** Evaluating the jobs *)

Section RunJobs.

Context `{Lib : Library}.
Variable cgfs : list CGF.

Let sz : Z := Z.of_nat (length cgfs).

(** The value a job computes: the repulsion integral of its four
    contracted functions. *)
Definition job_result (jb : job) (v : float) : Prop :=
  exists ci cj ck cl,
    cgfs !! Z.to_nat (job_i jb) = Some ci /\ cgfs !! Z.to_nat (job_j jb) = Some cj /\
    cgfs !! Z.to_nat (job_k jb) = Some ck /\ cgfs !! Z.to_nat (job_l jb) = Some cl /\
    v = repulsion_cgf ci cj ck cl.

Definition run_body (jobs : list job) (s : Z) (tedouble : list float)
    : outcome (list float) :=
  jb ← vec_get jobs s;
  ci ← vec_get cgfs (job_i jb);
  cj ← vec_get cgfs (job_j jb);
  ck ← vec_get cgfs (job_k jb);
  cl ← vec_get cgfs (job_l jb);
  vec_set tedouble (job_idx jb) (repulsion_cgf ci cj ck cl).

(** The state after the first [c] jobs: their slots hold their values,
    every other slot is as before. *)
Definition run_inv (n : nat) (jobs : list job) (te0 : list float) (c : nat)
    (te : list float) : Prop :=
  length te = n /\
  (forall s jb, (s < c)%nat -> jobs !! s = Some jb ->
     exists v, job_result jb v /\ te !! Z.to_nat (job_idx jb) = Some v) /\
  (forall m, (forall s jb, (s < c)%nat -> jobs !! s = Some jb ->
                Z.to_nat (job_idx jb) <> m) ->
     te !! m = te0 !! m).

Lemma run_body_spec n te0 jobs done s te :
  job_inv n done (te0, jobs) -> (forall q, q ∈ done -> q ∈ quads sz) ->
  0 <= s < Z.of_nat (length jobs) ->
  run_inv n jobs te0 (Z.to_nat s) te ->
  exists te', run_body jobs s te = Ok te' /\ run_inv n jobs te0 (S (Z.to_nat s)) te'.
Proof.
  intros (_ & _ & Hnd & Hjobs & _) Hdone Hs (Hlen & Hw & Hu).
  destruct (vec_get_ok jobs s Hs) as (jb & Ejb & Hjb).
  assert (Hin : jb ∈ jobs) by (apply list_elem_of_lookup; eauto).
  destruct (Hjobs jb Hin) as (Hq & _ & _ & Hidx).
  apply Hdone in Hq. unfold job_quad in Hq.
  apply elem_of_quads in Hq as (Hi & Hj & Hk & Hl).
  destruct (vec_get_ok cgfs (job_i jb) ltac:(unfold sz in *; lia)) as (ci & Ei & Hci).
  destruct (vec_get_ok cgfs (job_j jb) ltac:(unfold sz in *; lia)) as (cj & Ej & Hcj).
  destruct (vec_get_ok cgfs (job_k jb) ltac:(unfold sz in *; lia)) as (ck & Ek & Hck).
  destruct (vec_get_ok cgfs (job_l jb) ltac:(unfold sz in *; lia)) as (cl & El & Hcl).
  unfold run_body. rewrite Ejb. simpl. rewrite Ei. simpl. rewrite Ej. simpl.
  rewrite Ek. simpl. rewrite El. simpl. rewrite vec_set_ok by lia.
  eexists. split; [reflexivity |].
  split; [now rewrite length_insert |]. split.
  - intros s' jb' Hs' Hjb'.
    destruct (decide (s' = Z.to_nat s)) as [-> | Hne].
    + assert (jb' = jb) by congruence. subst jb'.
      exists (repulsion_cgf ci cj ck cl). split.
      * exists ci, cj, ck, cl. repeat split; assumption.
      * apply list_lookup_insert_eq. lia.
    + destruct (Hw s' jb' ltac:(lia) Hjb') as (v & Hv & Hlk).
      exists v. split; [exact Hv |].
      rewrite list_lookup_insert_ne; [exact Hlk |].
      intros E. apply Hne.
      assert (Hin' : jb' ∈ jobs) by (apply list_elem_of_lookup; eauto).
      destruct (Hjobs jb' Hin') as (_ & _ & _ & Hidx').
      apply Z2Nat.inj in E; [| lia ..].
      symmetry. apply (NoDup_lookup _ _ _ (job_idx jb) Hnd).
      * rewrite list_lookup_fmap, Hjb. reflexivity.
      * rewrite list_lookup_fmap, Hjb', E. reflexivity.
  - intros m Hm. rewrite list_lookup_insert_ne.
    + apply Hu. intros s' jb' Hs' Hjb'. apply (Hm s' jb'); [lia | exact Hjb'].
    + apply (Hm (Z.to_nat s) jb); [lia | exact Hjb].
Qed.

(** Running [c] iterations of the evaluation loop. *)
Lemma run_loop_ok n te0 jobs done (c : nat) :
  job_inv n done (te0, jobs) -> (forall q, q ∈ done -> q ∈ quads sz) ->
  (c <= length jobs)%nat ->
  exists te, for_loop c 0 (run_body jobs) te0 = Ok te /\ run_inv n jobs te0 c te.
Proof.
  intros HI Hdone Hc. rewrite for_loop_foldM.
  pose proof (foldM_spec (run_body jobs)
    (fun pre te => run_inv n jobs te0 (length pre) te)
    (fun _ _ => False) False (seqZ 0 (Z.of_nat c))) as H.
  cbv beta in H.
  match type of H with ?P -> _ => assert (Hstep : P) end.
  { intros pre s post te E Hinv. apply seqZ_split in E as [Es Hs].
    assert (Hpre : length pre = Z.to_nat s) by lia.
    rewrite Hpre in Hinv.
    destruct (run_body_spec n te0 jobs done s te HI Hdone ltac:(lia) Hinv)
      as (te' & -> & Hinv').
    rewrite length_app. simpl. rewrite Hpre.
    replace (Z.to_nat s + 1)%nat with (S (Z.to_nat s)) by lia. exact Hinv'. }
  assert (Hinit : run_inv n jobs te0 (length (@nil Z)) te0).
  { destruct HI as (Hlen & _). split; [exact Hlen |]. split.
    - intros s jb Hs. simpl in Hs. lia.
    - reflexivity. }
  specialize (H Hstep te0 Hinit).
  match type of H with match ?r with _ => _ end => destruct r as [te | w |] end.
  - exists te. split; [reflexivity |].
    rewrite length_seqZ, Nat2Z.id in H. exact H.
  - destruct H as (? & _ & []).
  - contradiction.
Qed.

Lemma run_jobs_ok n te0 jobs done :
  job_inv n done (te0, jobs) -> (forall q, q ∈ done -> q ∈ quads sz) ->
  exists te,
    run_jobs cgfs jobs te0 = Ok te /\
    run_inv n jobs te0 (Z.to_nat (to_int (Z.of_nat (length jobs)))) te.
Proof.
  intros HI Hdone. unfold run_jobs.
  apply (run_loop_ok n te0 jobs done); [exact HI | exact Hdone |].
  pose proof (to_int_le (Z.of_nat (length jobs)) ltac:(lia)). lia.
Qed.

End RunJobs.

(** ** The whole call *)

Section Evaluate.

Context `{Lib : Library}.

(** Whenever the job list is built, the evaluation loop completes and
    keeps the length of [tedouble]. *)
Lemma two_electron_spec cgfs :
  let sz := Z.of_nat (length cgfs) in
  match two_electron_jobs sz with
  | Ok (te0, jobs) =>
      exists te,
        two_electron cgfs = Ok te /\
        job_inv (Z.to_nat (te_size sz)) (quads sz) (te0, jobs) /\
        run_inv cgfs (Z.to_nat (te_size sz)) jobs te0
          (Z.to_nat (to_int (Z.of_nat (length jobs)))) te
  | Throw w => two_electron cgfs = Throw w
  | Undefined => False
  end.
Proof.
  intros sz. pose proof (two_electron_jobs_spec sz) as H.
  unfold two_electron. fold sz.
  destruct (two_electron_jobs sz) as [[te0 jobs] | w |]; simpl.
  - destruct (run_jobs_ok cgfs _ te0 jobs (quads sz) H (fun q Hq => Hq))
      as (te & E & Hinv).
    exists te. split; [exact E |]. split; [exact H | exact Hinv].
  - reflexivity.
  - exact H.
Qed.




(** When every slot has a job, the marks fill [tedouble] and there are
    as many jobs as slots. *)
Lemma job_inv_full n sz te jobs :
  job_inv n (quads sz) (te, jobs) ->
  (forall m, 0 <= m < Z.of_nat n -> m ∈ job_idx <$> jobs) ->
  te = replicate n 1%float /\ length jobs = n.
Proof.
  intros (Hlen & Hte & Hnd & Hjobs & _) Hall. split.
  - apply list_eq. intros m. destruct (decide (m < n)%nat) as [Hm | Hm].
    + rewrite (Hte m Hm), lookup_replicate_2 by exact Hm.
      rewrite bool_decide_eq_true_2; [reflexivity | apply Hall; lia].
    + rewrite !lookup_ge_None_2; [reflexivity | rewrite length_replicate; lia | lia].
  - assert (HP : job_idx <$> jobs ≡ₚ seqZ 0 (Z.of_nat n)).
    { apply NoDup_Permutation; [exact Hnd | apply NoDup_seqZ |].
      intros x. rewrite elem_of_seqZ. split.
      - intros Hx. apply list_elem_of_fmap in Hx as (jb & -> & Hjb).
        destruct (Hjobs jb Hjb) as (_ & _ & _ & H). lia.
      - intros Hx. apply Hall. lia. }
    apply Permutation_length in HP.
    rewrite length_fmap, length_seqZ, Nat2Z.id in HP. exact HP.
Qed.

(** A job list is only built for an array with a slot for the largest key. *)
Lemma te_size_succ sz te jobs :
  1 <= sz < 2 ^ 64 ->
  job_inv (Z.to_nat (te_size sz)) (quads sz) (te, jobs) ->
  te_size sz = teindex (sz - 1) (sz - 1) (sz - 1) (sz - 1) + 1.
Proof.
  intros Hsz (_ & _ & _ & _ & Hdone).
  destruct (Hdone (0, 0, 0, 0)) as [_ H0];
    [apply elem_of_quads; lia | simpl; lia |].
  change (key (0, 0, 0, 0)) with 0 in H0.
  pose proof (te_size_range sz) as Hr. rewrite Z2Nat.id in H0 by lia.
  unfold te_size in *. unfold size_sub in *. rewrite (wrap64_small (sz - 1)) in * by lia.
  pose proof (teindex_range (sz - 1) (sz - 1) (sz - 1) (sz - 1)) as Ht.
  unfold size_add, wrap64 in *.
  destruct (Z.eq_dec (teindex (sz - 1) (sz - 1) (sz - 1) (sz - 1)) (2 ^ 64 - 1)) as [E | E].
  - rewrite E in H0. change ((2 ^ 64 - 1 + 1) mod 2 ^ 64) with 0 in H0. lia.
  - apply Z.mod_small. lia.
Qed.

(** Every slot has a job. *)
Lemma all_slots_have_jobs sz te jobs :
  1 <= sz < 2 ^ 64 ->
  job_inv (Z.to_nat (te_size sz)) (quads sz) (te, jobs) ->
  forall m, 0 <= m < Z.of_nat (Z.to_nat (te_size sz)) -> m ∈ job_idx <$> jobs.
Proof.
  intros Hsz HI m Hm. pose proof (te_size_range sz) as Hr.
  rewrite Z2Nat.id in Hm by lia. rewrite (te_size_succ sz te jobs Hsz HI) in Hm.
  destruct (teindex_onto sz m Hsz ltac:(lia))
    as (i & j & k & l & Hi & Hj & Hk & Hl & _ & <-).
  apply (job_inv_complete (Z.to_nat (te_size sz)) sz te jobs i j k l HI); assumption.
Qed.

End Evaluate.

(** ** Binary64 identities *)

Section Binary64.

Lemma SFadd_opp (x y : spec_float) : SF64add x (SFopp y) = SF64sub x y.
Proof.
  unfold SF64add, SF64sub.
  destruct x as [sx | sx | | sx mx ex], y as [sy | sy | | sy my ey]; simpl;
    try reflexivity; destruct sx, sy; reflexivity.
Qed.

Lemma binary_round_aux_opp s m e l :
  SFopp (binary_round_aux prec emax s m e l) =
  binary_round_aux prec emax (negb s) m e l.
Proof.
  unfold binary_round_aux.
  destruct (shr_fexp prec emax m e l) as [mrs e'].
  destruct (shr_fexp prec emax _ e' loc_Exact) as [mrs' e''].
  destruct (shr_m mrs'); try reflexivity.
  destruct (e'' <=? emax - prec); reflexivity.
Qed.

Lemma SFmul_opp_l (x y : spec_float) : SF64mul (SFopp x) y = SFopp (SF64mul x y).
Proof.
  unfold SF64mul.
  destruct x as [sx | sx | | sx mx ex], y as [sy | sy | | sy my ey]; simpl;
    try reflexivity; try (destruct sx, sy; reflexivity).
  rewrite binary_round_aux_opp. f_equal. destruct sx, sy; reflexivity.
Qed.

(** Adding the opposite is subtracting. *)
Lemma float_add_opp x y : (x + - y = x - y)%float.
Proof.
  apply Prim2SF_inj. rewrite add_spec, sub_spec, opp_spec. apply SFadd_opp.
Qed.

(** The sign of a factor is the sign of the product. *)
Lemma float_mul_opp_l x y : (- x * y = - (x * y))%float.
Proof.
  apply Prim2SF_inj. rewrite mul_spec, !opp_spec, mul_spec. apply SFmul_opp_l.
Qed.

End Binary64.

(** ** The primitive kernels *)

Section PrimitiveKernels.

Context `{Lib : Library}.

(** The kinetic-energy integral in the words of the specification: the
    angular momenta are integers, [S l m n] is the overlap integral with
    the second orbital's momenta replaced by [l], [m], [n] (passed as
    [unsigned int]), and the square of the exponent is [pow(alpha2, 2)]. *)
Definition kinetic_formula (gto1 gto2 : GTO) : float :=
  let alpha2 := get_alpha gto2 in
  let l2 := get_l gto2 in let m2 := get_m gto2 in let n2 := get_n gto2 in
  let S (l m n : Z) :=
    overlap (get_alpha gto1) (get_l gto1) (get_m gto1) (get_n gto1) (get_position gto1)
            alpha2 (wrap32 l) (wrap32 m) (wrap32 n) (get_position gto2) in
  (alpha2 * (2 * double_of_Z (l2 + m2 + n2) + 3) * S l2 m2 n2
   - 2 * libm_pow alpha2 2 *
       (S (l2 + 2)%Z m2 n2 + S l2 (m2 + 2)%Z n2 + S l2 m2 (n2 + 2)%Z)
   - 0.5 * (double_of_Z (l2 * (l2 - 1)) * S (l2 - 2)%Z m2 n2 +
            double_of_Z (m2 * (m2 - 1)) * S l2 (m2 - 2)%Z n2 +
            double_of_Z (n2 * (n2 - 1)) * S l2 m2 (n2 - 2)%Z))%float.

(** The coefficient [l * (l - 1)] as [unsigned int] arithmetic computes it. *)
Lemma lowering_coefficient l :
  0 <= l < 2 ^ 16 -> uint_mul l (uint_sub l 1) = l * (l - 1).
Proof.
  intros Hl. unfold uint_mul, uint_sub.
  destruct (Z.eq_dec l 0) as [-> | Hne]; [reflexivity |].
  rewrite (wrap32_small (l - 1)) by lia. apply wrap32_small. nia.
Qed.

Lemma kinetic_gto_formula gto1 gto2 :
  0 <= get_l gto2 < 2 ^ 16 -> 0 <= get_m gto2 < 2 ^ 16 -> 0 <= get_n gto2 < 2 ^ 16 ->
  kinetic_gto gto1 gto2 = kinetic_formula gto1 gto2.
Proof.
  intros Hl Hm Hn. unfold kinetic_gto, kinetic_formula, overlap_gto.
  rewrite !lowering_coefficient by assumption.
  unfold uint_add, uint_sub.
  rewrite (wrap32_small (get_l gto2 + get_m gto2)) by lia.
  rewrite (wrap32_small (get_l gto2 + get_m gto2 + get_n gto2)) by lia.
  rewrite (wrap32_small (get_l gto2)), (wrap32_small (get_m gto2)),
    (wrap32_small (get_n gto2)) by lia.
  change (-2)%float with (- (2))%float. change (-0.5)%float with (- (0.5))%float.
  rewrite !float_mul_opp_l, !float_add_opp. reflexivity.
Qed.

(** The test of [binomial], over the integers. *)
Lemma binomial_guard a b :
  is_int a -> is_int b ->
  ((a <? 0) || (b <? 0) || (int_sub a b <? 0) = true <-> a < 0 \/ b < 0 \/ a < b).
Proof.
  unfold is_int, int_sub. intros Ha Hb.
  rewrite !orb_true_iff, !Z.ltb_lt.
  destruct (Z.lt_ge_cases a 0) as [Hna | Hpa]; [tauto |].
  destruct (Z.lt_ge_cases b 0) as [Hnb | Hpb]; [tauto |].
  rewrite to_int_small by lia. lia.
Qed.

End PrimitiveKernels.

(** ** The evaluation loop and its [int] counter *)

Section EvaluationLoop.

Context `{Lib : Library}.

Lemma to_int_negative x : 2 ^ 31 <= x < 2 ^ 32 -> to_int x < 0.
Proof.
  intros Hx. unfold to_int. rewrite wrap32_small by lia.
  destruct (Z.ltb_spec x (2 ^ 31)); lia.
Qed.

(** With at least [2^31] and fewer than [2^32] slots, [(int)jobs.size()]
    is negative, no job is evaluated, and every slot keeps the mark [1.0]
    of the job loop. *)
Lemma two_electron_unwritten cgfs :
  let sz := Z.of_nat (length cgfs) in
  1 <= sz <= max_basis -> 2 ^ 31 <= te_size sz < 2 ^ 32 ->
  two_electron cgfs = Ok (replicate (Z.to_nat (te_size sz)) 1%float).
Proof.
  intros sz Hsz Hsize.
  pose proof (two_electron_spec cgfs) as H. cbv zeta in H. fold sz in H.
  destruct (two_electron_jobs_ok sz) as (te0 & jobs & E & HI).
  { intros q Hq _. now apply keys_fit. }
  rewrite E in H. destruct H as (te & Ete & _ & Hlen & _ & Hsame).
  rewrite Ete. f_equal.
  assert (Hsz' : 1 <= sz < 2 ^ 64) by (unfold max_basis in Hsz; lia).
  destruct (job_inv_full _ sz te0 jobs HI (all_slots_have_jobs sz te0 jobs Hsz' HI))
    as [Hte0 Hjobs].
  rewrite <- Hte0. apply list_eq. intros m. apply Hsame.
  intros s jb Hs. rewrite Hjobs in Hs.
  pose proof (to_int_negative (Z.of_nat (Z.to_nat (te_size sz))) ltac:(lia)). lia.
Qed.


End EvaluationLoop.

(** ** More on loops *)

Section MoreLoops.

Context {St : Type}.

Lemma for_loop_ext n lo (f g : Z -> St -> outcome St) s :
  (forall i s, lo <= i < lo + Z.of_nat n -> f i s = g i s) ->
  for_loop n lo f s = for_loop n lo g s.
Proof.
  revert lo s. induction n as [| n IH]; intros lo s H; [reflexivity |].
  simpl. rewrite (H lo s) by lia.
  destruct (g lo s); simpl; [| reflexivity ..].
  apply IH. intros i s' Hi. apply H. lia.
Qed.

(** A loop whose iterations complete and keep [P] completes and keeps [P]. *)
Lemma for_loop_inv (P : St -> Prop) n lo (body : Z -> St -> outcome St) s :
  (forall i s, lo <= i < lo + Z.of_nat n -> P s ->
     exists s', body i s = Ok s' /\ P s') ->
  P s -> exists s', for_loop n lo body s = Ok s' /\ P s'.
Proof.
  revert lo s. induction n as [| n IH]; intros lo s H HP.
  - exists s. split; [reflexivity | exact HP].
  - simpl. destruct (H lo s ltac:(lia) HP) as (s1 & -> & HP1). simpl.
    apply IH; [| exact HP1]. intros i s' Hi. apply H. lia.
Qed.


(** A pure loop whose iterations leave the state alone. *)
Lemma for_acc_skip n lo (body : Z -> St -> St) s :
  (forall i, lo <= i < lo + Z.of_nat n -> body i s = s) ->
  for_acc n lo body s = s.
Proof.
  revert lo. induction n as [| n IH]; intros lo H; [reflexivity |].
  simpl. rewrite (H lo) by lia. apply IH. intros i Hi. apply H. lia.
Qed.

Lemma for_acc_ext n lo (f g : Z -> St -> St) s :
  (forall i s, lo <= i < lo + Z.of_nat n -> f i s = g i s) ->
  for_acc n lo f s = for_acc n lo g s.
Proof.
  revert lo s. induction n as [| n IH]; intros lo s H; [reflexivity |].
  simpl. rewrite (H lo s) by lia. apply IH. intros i s' Hi. apply H. lia.
Qed.

(** The same for a loop over a list. *)
Lemma foldM_inv {A} (P : St -> Prop) (f : A -> St -> outcome St) l s :
  (forall x s, x ∈ l -> P s -> exists s', f x s = Ok s' /\ P s') ->
  P s -> exists s', foldM f l s = Ok s' /\ P s'.
Proof.
  revert s. induction l as [| x l IH]; intros s H HP.
  - exists s. split; [reflexivity | exact HP].
  - simpl. destruct (H x s ltac:(left) HP) as (s1 & -> & HP1). simpl.
    apply IH; [| exact HP1]. intros y s' Hy. apply H. now right.
Qed.

(** A loop whose iterations leave the state alone. *)
Lemma for_loop_skip n lo (body : Z -> St -> outcome St) s :
  (forall i, lo <= i < lo + Z.of_nat n -> body i s = Ok s) ->
  for_loop n lo body s = Ok s.
Proof.
  revert lo. induction n as [| n IH]; intros lo H; [reflexivity |].
  simpl. rewrite (H lo) by lia. simpl. apply IH. intros i Hi. apply H. lia.
Qed.

End MoreLoops.

(** ** Keys identify quadruples up to symmetry *)

(** Two index pairs that are equal up to their order. *)
Definition same_pair (i j i' j' : Z) : Prop :=
  (i = i' /\ j = j') \/ (i = j' /\ j = i').

(** Two quadruples related by one of the eight permutations. *)
Definition same_integral (i j k l i' j' k' l' : Z) : Prop :=
  (same_pair i j i' j' /\ same_pair k l k' l') \/
  (same_pair i j k' l' /\ same_pair k l i' j').

Section Injectivity.

(** The compound index of an ordered pair determines the pair. *)
Lemma half_pair_inj a b a' b' :
  0 <= b <= a -> 0 <= b' <= a' ->
  a * (a + 1) / 2 + b = a' * (a' + 1) / 2 + b' -> a = a' /\ b = b'.
Proof.
  intros Hb Hb' E.
  destruct (Z.lt_trichotomy a a') as [H | [H | H]].
  - pose proof (half_mono (a + 1) a' ltac:(lia)).
    pose proof (half_succ a). lia.
  - subst a'. lia.
  - pose proof (half_mono (a' + 1) a ltac:(lia)).
    pose proof (half_succ a'). lia.
Qed.

Lemma max_min_pair (x y x' y' : Z) :
  Z.max x y = Z.max x' y' -> Z.min x y = Z.min x' y' ->
  (x = x' /\ y = y') \/ (x = y' /\ y = x').
Proof. lia. Qed.

Lemma teindex_same_integral i j k l i' j' k' l' :
  same_integral i j k l i' j' k' l' -> teindex i j k l = teindex i' j' k' l'.
Proof.
  assert (P : forall a b a' b', same_pair a b a' b' ->
            Z.max a b = Z.max a' b' /\ Z.min a b = Z.min a' b').
  { unfold same_pair. lia. }
  intros [[H1 H2] | [H1 H2]]; rewrite (teindex_tri i j k l);
    apply P in H1 as [E1 E2]; apply P in H2 as [E3 E4];
    rewrite E1, E2, E3, E4.
  - symmetry. apply teindex_tri.
  - rewrite (teindex_tri i' j' k' l').
    rewrite (Z.max_comm (tri (Z.max k' l') (Z.min k' l'))).
    rewrite (Z.min_comm (tri (Z.max k' l') (Z.min k' l'))).
    reflexivity.
Qed.

Lemma teindex_inj i j k l i' j' k' l' :
  0 <= i < max_basis -> 0 <= j < max_basis ->
  0 <= k < max_basis -> 0 <= l < max_basis ->
  0 <= i' < max_basis -> 0 <= j' < max_basis ->
  0 <= k' < max_basis -> 0 <= l' < max_basis ->
  teindex i j k l = teindex i' j' k' l' -> same_integral i j k l i' j' k' l'.
Proof.
  intros Hi Hj Hk Hl Hi' Hj' Hk' Hl' E.
  rewrite (teindex_canonical max_basis i j k l) in E by lia.
  rewrite (teindex_canonical max_basis i' j' k' l') in E by lia.
  unfold canonical_key in E.
  destruct (pair_bound max_basis (Z.max i j) (Z.min i j)) as [B1 _]; [lia .. |].
  destruct (pair_bound max_basis (Z.max k l) (Z.min k l)) as [B2 _]; [lia .. |].
  destruct (pair_bound max_basis (Z.max i' j') (Z.min i' j')) as [B3 _]; [lia .. |].
  destruct (pair_bound max_basis (Z.max k' l') (Z.min k' l')) as [B4 _]; [lia .. |].
  set (ij := Z.max i j * (Z.max i j + 1) / 2 + Z.min i j) in *.
  set (kl := Z.max k l * (Z.max k l + 1) / 2 + Z.min k l) in *.
  set (ij' := Z.max i' j' * (Z.max i' j' + 1) / 2 + Z.min i' j') in *.
  set (kl' := Z.max k' l' * (Z.max k' l' + 1) / 2 + Z.min k' l') in *.
  apply half_pair_inj in E as [E1 E2]; [| lia | lia].
  assert (P : forall a b a' b',
    0 <= a -> 0 <= b -> 0 <= a' -> 0 <= b' ->
    Z.max a b * (Z.max a b + 1) / 2 + Z.min a b =
    Z.max a' b' * (Z.max a' b' + 1) / 2 + Z.min a' b' -> same_pair a b a' b').
  { intros a b a' b' Ha Hb Ha' Hb' H.
    apply half_pair_inj in H as [H1 H2]; [| lia | lia].
    unfold same_pair. lia. }
  destruct (max_min_pair ij kl ij' kl' E1 E2) as [[F1 F2] | [F1 F2]].
  - left. split; apply P; try lia; assumption.
  - right. split; apply P; try lia; assumption.
Qed.

End Injectivity.

(** ** The number of jobs *)

Section JobCount.



End JobCount.

(** ** Point charges *)

Section Charges.

Context `{Lib : Library}.

Lemma vec_get_fmap {A B} (f : A -> B) (v : list A) i :
  vec_get (f <$> v) i =
  match vec_get v i with Ok x => Ok (f x) | Throw w => Throw w | Undefined => Undefined end.
Proof.
  unfold vec_get. rewrite length_fmap, list_lookup_fmap.
  destruct ((0 <=? i) && (i <? Z.of_nat (length v))); [| reflexivity].
  destruct (v !! Z.to_nat i); reflexivity.
Qed.

(** The loop over the charges sees a charge through its conversion to
    [unsigned int] only. *)
Lemma charge_loop_unsigned (f : Z -> Z) charges px py pz sz ci cj i j Vn :
  (forall q, wrap32 (f q) = wrap32 q) ->
  charge_loop (f <$> charges) px py pz sz ci cj i j Vn =
  charge_loop charges px py pz sz ci cj i j Vn.
Proof.
  intros Hf. unfold charge_loop. rewrite length_fmap.
  apply for_loop_ext. intros k W _.
  destruct (vec_get px k); simpl; [| reflexivity ..].
  destruct (vec_get py k); simpl; [| reflexivity ..].
  destruct (vec_get pz k); simpl; [| reflexivity ..].
  rewrite vec_get_fmap.
  destruct (vec_get charges k); simpl; [| reflexivity ..].
  rewrite Hf. reflexivity.
Qed.

Lemma integral_matrices_unsigned (f : Z -> Z) cgfs charges px py pz :
  (forall q, wrap32 (f q) = wrap32 q) ->
  integral_matrices cgfs (f <$> charges) px py pz =
  integral_matrices cgfs charges px py pz.
Proof.
  intros Hf. unfold integral_matrices. rewrite length_fmap.
  assert (E : forall st,
    pair_loop cgfs (f <$> charges) px py pz (Z.of_nat (length cgfs)) st =
    pair_loop cgfs charges px py pz (Z.of_nat (length cgfs)) st).
  { intros st. unfold pair_loop.
    apply for_loop_ext. intros i s1 _. apply for_loop_ext. intros j [[Smat Tmat] Vn] _.
    unfold pair_body.
    destruct (vec_get cgfs i) as [ci | |]; simpl; [| reflexivity ..].
    destruct (vec_get cgfs j) as [cj | |]; simpl; [| reflexivity ..].
    repeat match goal with
    | |- context [mat_set ?n ?M ?a ?b ?v] =>
        destruct (mat_set n M a b v); simpl; [| reflexivity ..]
    end.
    now rewrite charge_loop_unsigned. }
  rewrite E. reflexivity.
Qed.

Lemma wrap32_negative q : - 2 ^ 31 <= q < 0 -> wrap32 q = q + 2 ^ 32.
Proof.
  intros Hq. unfold wrap32. symmetry. apply (Z.mod_unique_pos _ _ (-1)); lia.
Qed.

End Charges.

(** ** Position vectors and the cells of an iteration *)

Section Positions.

Context `{Lib : Library}.





End Positions.

(** ** Angular momenta of the derivative routines *)

(** The angular momentum of a primitive along a coordinate. *)
Definition momentum (g : GTO) (coord : Z) : Z :=
  if coord =? 0 then get_l g else if coord =? 1 then get_m g else get_n g.

(** The value all primitive derivative routines return, for a kernel
    [D] evaluated on a primitive with a shifted momentum. *)
Definition derivative_rule (alpha : float) (a : Z) (D : Z -> float) : float :=
  if a =? 0 then (2 * alpha * D (a + 1)%Z)%float
  else (2 * alpha * D (a + 1)%Z - double_of_Z a * D (a - 1)%Z)%float.

Section AngularArray.

Lemma uint_shift a :
  0 <= a < 2 ^ 32 - 1 ->
  uint_add a 1 = a + 1 /\
  (a <> 0 -> uint_sub (uint_add a 1) 2 = a - 1 /\
             uint_add (uint_sub (uint_add a 1) 2) 1 = a).
Proof.
  intros Ha. unfold uint_add, uint_sub.
  rewrite (wrap32_small (a + 1)) by lia. split; [reflexivity |].
  intros Hne. rewrite (wrap32_small (a + 1 - 2)) by lia.
  split; [lia |]. rewrite wrap32_small by lia. lia.
Qed.

Lemma gto_ang_get {A} (a b c : A) :
  vec_get [a; b; c] 0 = Ok a /\ vec_get [a; b; c] 1 = Ok b /\
  vec_get [a; b; c] 2 = Ok c.
Proof. repeat split. Qed.

Lemma gto_ang_set {A} (a b c x : A) :
  vec_set [a; b; c] 0 x = Ok [x; b; c] /\ vec_set [a; b; c] 1 x = Ok [a; x; c] /\
  vec_set [a; b; c] 2 x = Ok [a; b; x].
Proof. repeat split. Qed.

Lemma gto_ang_out_of_range {A} (a b c : A) coord :
  coord < 0 \/ 3 <= coord -> vec_get [a; b; c] coord = Undefined.
Proof.
  intros H. unfold vec_get.
  destruct (Z.leb_spec 0 coord); [| reflexivity].
  destruct (Z.ltb_spec coord (Z.of_nat (length [a; b; c]))); [simpl in *; lia | reflexivity].
Qed.

End AngularArray.

(** The steps shared by the primitive derivative routines: read
    [gto_ang[coord]], branch on it, and follow the three updates. *)
Ltac follow_gto_ang Ha :=
  let E1 := fresh "E1" in
  let E2 := fresh "E2" in
  let E0 := fresh "E0" in
  let E3 := fresh "E3" in
  let E4 := fresh "E4" in
  unfold derivative_rule, momentum in *;
  cbn [Z.eqb Pos.eqb get_l get_m get_n get_alpha get_position get_coefficient] in *;
  destruct (uint_shift _ Ha) as [E1 E2];
  match goal with
  | |- context [vec_get [?a; ?b; ?c] 0] => rewrite (proj1 (gto_ang_get a b c))
  | |- context [vec_get [?a; ?b; ?c] 1] => rewrite (proj1 (proj2 (gto_ang_get a b c)))
  | |- context [vec_get [?a; ?b; ?c] 2] => rewrite (proj2 (proj2 (gto_ang_get a b c)))
  end;
  cbn [mbind outcome_bind];
  match goal with
  | |- context [negb (?a =? 0)] => destruct (Z.eqb_spec a 0) as [E0 | E0]
  end;
  cbn [negb];
  repeat (match goal with
          | |- context [vec_set [?a; ?b; ?c] 0 ?x] =>
              rewrite (proj1 (gto_ang_set a b c x))
          | |- context [vec_set [?a; ?b; ?c] 1 ?x] =>
              rewrite (proj1 (proj2 (gto_ang_set a b c x)))
          | |- context [vec_set [?a; ?b; ?c] 2 ?x] =>
              rewrite (proj2 (proj2 (gto_ang_set a b c x)))
          end; cbn [mbind outcome_bind]);
  try (destruct (E2 E0) as [E3 E4]; rewrite ?E4, ?E3);
  rewrite ?E1; reflexivity.

Section Momenta.

Context `{Lib : Library}.

(** The primitive the derivative routines build: the same coefficient,
    centre and exponent, and the momentum along [coord] replaced. *)
Definition with_momentum (g : GTO) (coord x : Z) : GTO :=
  GTO_new (get_coefficient g)
    (vec3_x (get_position g)) (vec3_y (get_position g)) (vec3_z (get_position g))
    (get_alpha g)
    (if coord =? 0 then x else get_l g)
    (if coord =? 1 then x else get_m g)
    (if coord =? 2 then x else get_n g).

Lemma binomial_prefactor_zero s ia ib xpa xpb :
  - 2 ^ 30 <= s < 2 ^ 30 -> - 2 ^ 30 <= ia < 2 ^ 30 ->
  ia < 0 \/ ib < 0 \/ ia + ib < s ->
  binomial_prefactor s ia ib xpa xpb = 0%float.
Proof.
  intros Hs Hia H. unfold binomial_prefactor, int_add, int_sub.
  rewrite (to_int_small (s + 1)) by lia. rewrite (to_int_small (s - ia)) by lia.
  apply for_acc_skip. intros t Ht.
  destruct (Z.leb_spec (s - ia) t); [| reflexivity].
  destruct (Z.leb_spec t ib); [lia | reflexivity].
Qed.

Lemma overlap_1D_zero l1 l2 x1 x2 gamma :
  - 2 ^ 30 <= l1 < 2 ^ 30 -> - 2 ^ 30 <= l2 < 2 ^ 30 -> l1 + l2 < 0 ->
  overlap_1D l1 l2 x1 x2 gamma = 0%float.
Proof.
  intros H1 H2 H. unfold overlap_1D, int_add.
  rewrite (to_int_small (l1 + l2)) by lia.
  assert (E : (l1 + l2) / 2 <= - 1).
  { apply Z.lt_succ_r. apply Z.div_lt_upper_bound; lia. }
  replace (Z.to_nat (1 + (l1 + l2) / 2)) with 0%nat by lia. reflexivity.
Qed.




End Momenta.

(** ** The arrays of the nuclear and repulsion kernels *)

Section Arrays.

Context `{Lib : Library}.
Variable Fgamma : Z -> float -> float.

Lemma vec_new_ok {A} n (x : A) :
  0 <= n -> vec_new n x = Ok (replicate (Z.to_nat n) x).
Proof.
  intros H. unfold vec_new. destruct (Z.ltb_spec n 0); [lia | reflexivity].
Qed.

(** [arr[i] += x] inside the bounds keeps the length. *)
Lemma accumulate_ok (arr : list float) n i (x : float) :
  Z.of_nat (length arr) = n -> 0 <= i < n ->
  exists arr', (y ← vec_get arr i; vec_set arr i (y + x)%float) = Ok arr' /\
               Z.of_nat (length arr') = n.
Proof.
  intros Hn Hi. destruct (vec_get_ok arr i ltac:(lia)) as (y & -> & _). simpl.
  rewrite vec_set_ok by lia. eexists. split; [reflexivity |].
  now rewrite length_insert.
Qed.

(** Truncating division of a non-negative [int] by two. *)
Lemma quot2 i : 0 <= i -> 0 <= i ÷ 2 /\ 2 * (i ÷ 2) <= i /\ i < 2 * (i ÷ 2) + 2.
Proof.
  intros Hi. rewrite Z.quot_div_nonneg by lia.
  pose proof (Z.div_mod i 2 ltac:(lia)). pose proof (Z.mod_pos_bound i 2 ltac:(lia)).
  lia.
Qed.

Lemma A_array_ok l1 l2 pa pb cp g :
  0 <= l1 -> 0 <= l2 -> l1 + l2 < 2 ^ 30 ->
  exists arr, A_array l1 l2 pa pb cp g = Ok arr /\
              Z.of_nat (length arr) = l1 + l2 + 1.
Proof.
  intros H1 H2 Hb. unfold A_array, int_add, int_sub, int_mul.
  rewrite (to_int_small (l1 + l2)) by lia.
  rewrite (to_int_small (l1 + l2 + 1)) by lia.
  rewrite vec_new_ok by lia. simpl.
  apply (for_loop_inv (fun arr : list float => Z.of_nat (length arr) = l1 + l2 + 1)).
  2: { rewrite length_replicate. lia. }
  intros i arr Hi Harr. apply for_loop_inv; [| exact Harr].
  intros r arr1 Hr Harr1. destruct (quot2 i ltac:(lia)) as (Q1 & Q2 & _).
  rewrite (to_int_small (2 * r)) by lia. rewrite (to_int_small (i - 2 * r)) by lia.
  apply for_loop_inv; [| exact Harr1].
  intros u arr2 Hu Harr2. destruct (quot2 (i - 2 * r) ltac:(lia)) as (Q3 & Q4 & _).
  rewrite (to_int_small (i - 2 * r - u)) by lia.
  apply accumulate_ok; [exact Harr2 | lia].
Qed.

Lemma A_array_deriv_ok l1 l2 pa pb cp g :
  0 <= l1 -> 0 <= l2 -> l1 + l2 < 2 ^ 30 ->
  exists arr, A_array_deriv l1 l2 pa pb cp g = Ok arr /\
              Z.of_nat (length arr) = l1 + l2 + 1.
Proof.
  intros H1 H2 Hb. unfold A_array_deriv, int_add, int_sub, int_mul.
  rewrite (to_int_small (l1 + l2)) by lia.
  rewrite (to_int_small (l1 + l2 + 1)) by lia.
  rewrite vec_new_ok by lia. simpl.
  apply (for_loop_inv (fun arr : list float => Z.of_nat (length arr) = l1 + l2 + 1)).
  2: { rewrite length_replicate. lia. }
  intros i arr Hi Harr. apply for_loop_inv; [| exact Harr].
  intros r arr1 Hr Harr1. destruct (quot2 i ltac:(lia)) as (Q1 & Q2 & _).
  rewrite (to_int_small (2 * r)) by lia. rewrite (to_int_small (i - 2 * r)) by lia.
  apply for_loop_inv; [| exact Harr1].
  intros u arr2 Hu Harr2. destruct (quot2 (i - 2 * r) ltac:(lia)) as (Q3 & Q4 & _).
  rewrite (to_int_small (i - 2 * r - u)) by lia.
  match goal with |- context [if ?c then _ else _] => destruct c end.
  - apply accumulate_ok; [exact Harr2 | lia].
  - exists arr2. split; [reflexivity | exact Harr2].
Qed.

(** At [cp == 0] no term is added. *)
Lemma A_array_deriv_zero l1 l2 pa pb cp g :
  0 <= int_add (int_add l1 l2) 1 -> (cp =? 0)%float = true ->
  A_array_deriv l1 l2 pa pb cp g =
  Ok (replicate (Z.to_nat (int_add (int_add l1 l2) 1)) 0%float).
Proof.
  intros Hn Hcp. unfold A_array_deriv.
  rewrite vec_new_ok by exact Hn. simpl.
  apply for_loop_skip. intros i _. apply for_loop_skip. intros r _.
  apply for_loop_skip. intros u _. now rewrite Hcp, andb_false_r.
Qed.

Lemma B_array_ok l1 l2 l3 l4 p a b q c d g1 g2 delta :
  0 <= l1 -> 0 <= l2 -> 0 <= l3 -> 0 <= l4 -> l1 + l2 + l3 + l4 < 2 ^ 30 ->
  exists arr, B_array l1 l2 l3 l4 p a b q c d g1 g2 delta = Ok arr /\
              Z.of_nat (length arr) = l1 + l2 + l3 + l4 + 1.
Proof.
  intros H1 H2 H3 H4 Hb. unfold B_array, int_add, int_sub, int_mul.
  rewrite (to_int_small (l1 + l2)) by lia.
  rewrite (to_int_small (l1 + l2 + l3)) by lia.
  rewrite (to_int_small (l1 + l2 + l3 + l4)) by lia.
  rewrite (to_int_small (l1 + l2 + l3 + l4 + 1)) by lia.
  rewrite (to_int_small (l1 + l2 + 1)) by lia.
  rewrite (to_int_small (l3 + l4)) by lia.
  rewrite (to_int_small (l3 + l4 + 1)) by lia.
  rewrite vec_new_ok by lia. simpl.
  apply (for_loop_inv
           (fun arr : list float => Z.of_nat (length arr) = l1 + l2 + l3 + l4 + 1)).
  2: { rewrite length_replicate. lia. }
  intros i1 arr Hi1 Harr. apply for_loop_inv; [| exact Harr].
  intros i2 arr1 Hi2 Harr1.
  destruct (quot2 i1 ltac:(lia)) as (Q1 & Q2 & _).
  destruct (quot2 i2 ltac:(lia)) as (Q3 & Q4 & _).
  rewrite (to_int_small (i1 ÷ 2 + 1)) by lia.
  rewrite (to_int_small (i2 ÷ 2 + 1)) by lia.
  rewrite (to_int_small (i1 + i2)) by lia.
  destruct (quot2 (i1 + i2) ltac:(lia)) as (Q5 & Q6 & Q7).
  apply for_loop_inv; [| exact Harr1].
  intros r1 arr2 Hr1 Harr2. apply for_loop_inv; [| exact Harr2].
  intros r2 arr3 Hr2 Harr3.
  rewrite (to_int_small ((i1 + i2) ÷ 2 - r1)) by lia.
  rewrite (to_int_small ((i1 + i2) ÷ 2 - r1 - r2)) by lia.
  rewrite (to_int_small ((i1 + i2) ÷ 2 - r1 - r2 + 1)) by lia.
  rewrite (to_int_small (r1 + r2)) by lia.
  rewrite (to_int_small (2 * (r1 + r2))) by lia.
  rewrite (to_int_small (i1 + i2 - 2 * (r1 + r2))) by lia.
  apply for_loop_inv; [| exact Harr3].
  intros u arr4 Hu Harr4.
  rewrite (to_int_small (i1 + i2 - 2 * (r1 + r2) - u)) by lia.
  apply accumulate_ok; [exact Harr4 | lia].
Qed.

End Arrays.

(** ** The sums over the arrays *)

Lemma for_upto_inv {St} (P : St -> Prop) bound (body : Z -> St -> outcome St) s :
  bound < 2 ^ 31 - 1 ->
  (forall i s, 0 <= i <= bound -> P s -> exists s', body i s = Ok s' /\ P s') ->
  P s -> exists s', for_upto bound body s = Ok s' /\ P s'.
Proof.
  intros Hb H HP. unfold for_upto.
  destruct (Z.eqb_spec bound (2 ^ 31 - 1)); [lia |].
  apply for_loop_inv; [| exact HP]. intros i s' Hi. apply H. lia.
Qed.

(** Run the loop of the goal under an invariant. *)
Ltac loop_with P :=
  match goal with
  | |- context [for_upto ?bound ?body ?s] =>
      let v := fresh "v" in
      let E := fresh "E" in
      let HP := fresh "HP" in
      destruct (for_upto_inv P bound body s) as (v & E & HP);
      [| | | rewrite E; cbn [mbind outcome_bind]]
  end.

(** The momenta of a primitive, as [unsigned int] values small enough
    for the sums of the kernels. *)
Definition small_momenta (g : GTO) : Prop :=
  0 <= get_l g < 2 ^ 28 /\ 0 <= get_m g < 2 ^ 28 /\ 0 <= get_n g < 2 ^ 28.

(** Read the three-element arrays of the goal at constant indices. *)
Ltac read_triples :=
  repeat (rewrite (proj1 (gto_ang_get _ _ _)) ||
          rewrite (proj1 (proj2 (gto_ang_get _ _ _))) ||
          rewrite (proj2 (proj2 (gto_ang_get _ _ _))));
  cbn [mbind outcome_bind].

Section Completion.

Context `{Lib : Library}.
Variable Fgamma : Z -> float -> float.

Lemma nuclear_ok a l1 m1 n1 alpha1 b l2 m2 n2 alpha2 c :
  0 <= l1 -> 0 <= m1 -> 0 <= n1 -> 0 <= l2 -> 0 <= m2 -> 0 <= n2 ->
  l1 + l2 < 2 ^ 30 -> m1 + m2 < 2 ^ 30 -> n1 + n2 < 2 ^ 30 ->
  exists v, nuclear Fgamma a l1 m1 n1 alpha1 b l2 m2 n2 alpha2 c = Ok v.
Proof.
  intros Hl1 Hm1 Hn1 Hl2 Hm2 Hn2 Bl Bm Bn. unfold nuclear.
  match goal with |- context [A_array l1 l2 ?pa ?pb ?cp ?g] =>
    destruct (A_array_ok l1 l2 pa pb cp g Hl1 Hl2 Bl) as (ax & -> & Hx) end.
  match goal with |- context [A_array m1 m2 ?pa ?pb ?cp ?g] =>
    destruct (A_array_ok m1 m2 pa pb cp g Hm1 Hm2 Bm) as (ay & -> & Hy) end.
  match goal with |- context [A_array n1 n2 ?pa ?pb ?cp ?g] =>
    destruct (A_array_ok n1 n2 pa pb cp g Hn1 Hn2 Bn) as (az & -> & Hz) end.
  cbn [mbind outcome_bind]. unfold int_add.
  rewrite (to_int_small (l1 + l2)), (to_int_small (m1 + m2)),
    (to_int_small (n1 + n2)) by lia.
  loop_with (fun _ : float => True); [lia | | exact I | eauto].
  intros i s Hi _. apply for_upto_inv; [lia | | exact I].
  intros j s1 Hj _. apply for_upto_inv; [lia | | exact I].
  intros k s2 Hk _.
  destruct (vec_get_ok ax i ltac:(lia)) as (xi & -> & _).
  destruct (vec_get_ok ay j ltac:(lia)) as (yj & -> & _).
  destruct (vec_get_ok az k ltac:(lia)) as (zk & -> & _).
  cbn [mbind outcome_bind]. eauto.
Qed.

Lemma repulsion_ok a la ma na alphaa b lb mb nb alphab
    c lc mc nc alphac d ld md nd alphad :
  0 <= la -> 0 <= ma -> 0 <= na -> 0 <= lb -> 0 <= mb -> 0 <= nb ->
  0 <= lc -> 0 <= mc -> 0 <= nc -> 0 <= ld -> 0 <= md -> 0 <= nd ->
  la + lb + lc + ld < 2 ^ 30 -> ma + mb + mc + md < 2 ^ 30 ->
  na + nb + nc + nd < 2 ^ 30 ->
  exists v, repulsion Fgamma a la ma na alphaa b lb mb nb alphab
              c lc mc nc alphac d ld md nd alphad = Ok v.
Proof.
  intros Hla Hma Hna Hlb Hmb Hnb Hlc Hmc Hnc Hld Hmd Hnd Bl Bm Bn.
  unfold repulsion.
  match goal with |- context [B_array la lb lc ld ?p ?x ?y ?q ?z ?w ?g1 ?g2 ?dl] =>
    destruct (B_array_ok la lb lc ld p x y q z w g1 g2 dl Hla Hlb Hlc Hld Bl)
      as (bx & -> & Hx) end.
  match goal with |- context [B_array ma mb mc md ?p ?x ?y ?q ?z ?w ?g1 ?g2 ?dl] =>
    destruct (B_array_ok ma mb mc md p x y q z w g1 g2 dl Hma Hmb Hmc Hmd Bm)
      as (by_ & -> & Hy) end.
  match goal with |- context [B_array na nb nc nd ?p ?x ?y ?q ?z ?w ?g1 ?g2 ?dl] =>
    destruct (B_array_ok na nb nc nd p x y q z w g1 g2 dl Hna Hnb Hnc Hnd Bn)
      as (bz & -> & Hz) end.
  cbn [mbind outcome_bind]. unfold int_add.
  rewrite (to_int_small (la + lb)), (to_int_small (ma + mb)),
    (to_int_small (na + nb)) by lia.
  rewrite (to_int_small (la + lb + lc)), (to_int_small (ma + mb + mc)),
    (to_int_small (na + nb + nc)) by lia.
  rewrite (to_int_small (la + lb + lc + ld)), (to_int_small (ma + mb + mc + md)),
    (to_int_small (na + nb + nc + nd)) by lia.
  loop_with (fun _ : float => True); [lia | | exact I | eauto].
  intros i s Hi _. apply for_upto_inv; [lia | | exact I].
  intros j s1 Hj _. apply for_upto_inv; [lia | | exact I].
  intros k s2 Hk _.
  destruct (vec_get_ok bx i ltac:(lia)) as (xi & -> & _).
  destruct (vec_get_ok by_ j ltac:(lia)) as (yj & -> & _).
  destruct (vec_get_ok bz k ltac:(lia)) as (zk & -> & _).
  cbn [mbind outcome_bind]. eauto.
Qed.

Lemma nuclear_deriv_op_ok a l1 m1 n1 alpha1 b l2 m2 n2 alpha2 c coord :
  0 <= coord < 3 ->
  0 <= l1 -> 0 <= m1 -> 0 <= n1 -> 0 <= l2 -> 0 <= m2 -> 0 <= n2 ->
  l1 + l2 < 2 ^ 30 -> m1 + m2 < 2 ^ 30 -> n1 + n2 < 2 ^ 30 ->
  exists v, nuclear_deriv_op Fgamma a l1 m1 n1 alpha1 b l2 m2 n2 alpha2 c coord = Ok v.
Proof.
  intros Hc Hl1 Hm1 Hn1 Hl2 Hm2 Hn2 Bl Bm Bn. unfold nuclear_deriv_op.
  assert (C : coord = 0 \/ coord = 1 \/ coord = 2) by lia.
  match goal with |- context [A_array l1 l2 ?pa ?pb ?cp ?g] =>
    destruct (A_array_ok l1 l2 pa pb cp g Hl1 Hl2 Bl) as (ax & -> & Hx);
    destruct (A_array_deriv_ok l1 l2 pa pb cp g Hl1 Hl2 Bl) as (dx & Edx & Hdx) end.
  match goal with |- context [A_array m1 m2 ?pa ?pb ?cp ?g] =>
    destruct (A_array_ok m1 m2 pa pb cp g Hm1 Hm2 Bm) as (ay & -> & Hy);
    destruct (A_array_deriv_ok m1 m2 pa pb cp g Hm1 Hm2 Bm) as (dy & Edy & Hdy) end.
  match goal with |- context [A_array n1 n2 ?pa ?pb ?cp ?g] =>
    destruct (A_array_ok n1 n2 pa pb cp g Hn1 Hn2 Bn) as (az & -> & Hz);
    destruct (A_array_deriv_ok n1 n2 pa pb cp g Hn1 Hn2 Bn) as (dz & Edz & Hdz) end.
  unfold int_add in *.
  rewrite (to_int_small (l1 + l2)), (to_int_small (m1 + m2)),
    (to_int_small (n1 + n2)) in * by lia.
  destruct C as [-> | [-> | ->]].
  - change (uint_add 0 1 mod 3) with 1. change (uint_add 0 2 mod 3) with 2.
    cbn [Z.eqb Pos.eqb]. rewrite Edx. read_triples.
    loop_with (fun _ : float => True); [lia | | exact I | eauto].
    intros i s Hi _. apply for_upto_inv; [lia | | exact I].
    intros j s1 Hj _. apply for_upto_inv; [lia | | exact I].
    intros k s2 Hk _. read_triples.
    destruct (vec_get_ok ax i ltac:(lia)) as (xi & -> & _).
    destruct (vec_get_ok dx i ltac:(lia)) as (di & -> & _).
    destruct (vec_get_ok ay j ltac:(lia)) as (yj & -> & _).
    destruct (vec_get_ok az k ltac:(lia)) as (zk & -> & _).
    cbn [mbind outcome_bind]. eauto.
  - change (uint_add 1 1 mod 3) with 2. change (uint_add 1 2 mod 3) with 0.
    cbn [Z.eqb Pos.eqb]. rewrite Edy. read_triples.
    loop_with (fun _ : float => True); [lia | | exact I | eauto].
    intros i s Hi _. apply for_upto_inv; [lia | | exact I].
    intros j s1 Hj _. apply for_upto_inv; [lia | | exact I].
    intros k s2 Hk _. read_triples.
    destruct (vec_get_ok ay i ltac:(lia)) as (xi & -> & _).
    destruct (vec_get_ok dy i ltac:(lia)) as (di & -> & _).
    destruct (vec_get_ok az j ltac:(lia)) as (yj & -> & _).
    destruct (vec_get_ok ax k ltac:(lia)) as (zk & -> & _).
    cbn [mbind outcome_bind]. eauto.
  - change (uint_add 2 1 mod 3) with 0. change (uint_add 2 2 mod 3) with 1.
    cbn [Z.eqb Pos.eqb]. rewrite Edz. read_triples.
    loop_with (fun _ : float => True); [lia | | exact I | eauto].
    intros i s Hi _. apply for_upto_inv; [lia | | exact I].
    intros j s1 Hj _. apply for_upto_inv; [lia | | exact I].
    intros k s2 Hk _. read_triples.
    destruct (vec_get_ok az i ltac:(lia)) as (xi & -> & _).
    destruct (vec_get_ok dz i ltac:(lia)) as (di & -> & _).
    destruct (vec_get_ok ax j ltac:(lia)) as (yj & -> & _).
    destruct (vec_get_ok ay k ltac:(lia)) as (zk & -> & _).
    cbn [mbind outcome_bind]. eauto.
Qed.

Lemma nuclear_deriv_op_undefined a l1 m1 n1 alpha1 b l2 m2 n2 alpha2 c coord :
  coord < 0 \/ 3 <= coord ->
  nuclear_deriv_op Fgamma a l1 m1 n1 alpha1 b l2 m2 n2 alpha2 c coord = Undefined.
Proof.
  intros Hc. unfold nuclear_deriv_op.
  rewrite (gto_ang_out_of_range (vec3_x _) _ _ coord Hc). reflexivity.
Qed.

End Completion.

(** ** The derivative of the nuclear integral *)

Section NuclearDerivatives.

Context `{Lib : Library}.
Variable Fgamma : Z -> float -> float.

Lemma nuclear_deriv_bf_rule g1 g2 nucleus coord :
  0 <= coord < 3 -> 0 <= momentum g1 coord < 2 ^ 32 - 1 ->
  nuclear_deriv_bf Fgamma g1 g2 nucleus coord =
  let a := momentum g1 coord in
  let N x := nuclear_primitives Fgamma (with_momentum g1 coord x) g2 nucleus in
  if a =? 0 then
    term1 ← N (a + 1); Ok (2 * get_alpha g1 * term1)%float
  else
    term_plus ← N (a + 1);
    term_min ← N (a - 1);
    Ok (2 * get_alpha g1 * term_plus - double_of_Z a * term_min)%float.
Proof.
  intros Hc Ha. destruct g1 as [c alpha l m n [[x y] z] nm].
  assert (C : coord = 0 \/ coord = 1 \/ coord = 2) by lia.
  unfold nuclear_deriv_bf. cbv zeta.
  destruct C as [-> | [-> | ->]]; follow_gto_ang Ha.
Qed.

Lemma nuclear_deriv_bf_undefined g1 g2 nucleus coord :
  coord < 0 \/ 3 <= coord -> nuclear_deriv_bf Fgamma g1 g2 nucleus coord = Undefined.
Proof.
  intros Hc. unfold nuclear_deriv_bf. now rewrite gto_ang_out_of_range.
Qed.

End NuclearDerivatives.

(** ** Finite doubles *)

Section Finite.

Lemma digits2_pos_bound p n :
  0 <= n -> Z.pos p < 2 ^ n -> Z.pos (digits2_pos p) <= n.
Proof.
  revert n. induction p as [p IH | p IH |]; intros n Hn H; simpl.
  - assert (0 < n) by (destruct (Z.eq_dec n 0) as [-> |]; [simpl in H |]; lia).
    replace n with ((n - 1) + 1) in H by lia. rewrite Z.pow_add_r in H by lia.
    specialize (IH (n - 1) ltac:(lia) ltac:(lia)). lia.
  - assert (0 < n) by (destruct (Z.eq_dec n 0) as [-> |]; [simpl in H |]; lia).
    replace n with ((n - 1) + 1) in H by lia. rewrite Z.pow_add_r in H by lia.
    specialize (IH (n - 1) ltac:(lia) ltac:(lia)). lia.
  - destruct (Z.eq_dec n 0) as [-> |]; [simpl in H |]; lia.
Qed.

Lemma digits2_pos_iter p k :
  Z.pos (digits2_pos (Pos.iter xO p k)) = Z.pos (digits2_pos p) + Z.pos k.
Proof.
  induction k as [| k IH] using Pos.peano_ind.
  - simpl. lia.
  - rewrite Pos.iter_succ. simpl. lia.
Qed.

(** An integer below [2^53] converts to a finite, non-negative double. *)
Lemma binary_normalize_small p :
  Z.pos p < 2 ^ 53 ->
  exists m e, binary_normalize prec emax (Z.pos p) 0 false = S754_finite false m e.
Proof.
  intros Hp. pose proof (digits2_pos_bound p 53 ltac:(lia) Hp) as Hd.
  unfold binary_normalize, binary_round.
  set (d := Z.pos (digits2_pos p)) in *.
  assert (Hd0 : 0 < d) by (unfold d; lia).
  assert (Align : exists mz, shl_align p 0 (fexp prec emax (d + 0)) = (mz, d - 53) /\
                             Zdigits2 (Z.pos mz) = 53).
  { unfold shl_align, fexp, SpecFloat.emin, prec, emax.
    rewrite Z.max_l by lia. rewrite Z.add_0_r, Z.sub_0_r.
    destruct (d - 53) as [| q | q] eqn:E; try lia.
    - exists p. split; [f_equal; lia |]. simpl. fold d. lia.
    - exists (Pos.iter xO p q). split; [reflexivity |]. simpl.
      rewrite digits2_pos_iter. fold d. lia. }
  destruct Align as (mz & -> & Hmz).
  unfold binary_round_aux.
  assert (Keep : forall l, shr_fexp prec emax (Z.pos mz) (d - 53) l =
                           (shr_record_of_loc (Z.pos mz) l, d - 53)).
  { intros l. unfold shr_fexp. rewrite Hmz.
    unfold fexp, SpecFloat.emin, prec, emax. rewrite Z.max_l by lia.
    replace (53 + (d - 53) - 53 - (d - 53)) with 0 by lia. reflexivity. }
  rewrite Keep. cbn [shr_record_of_loc shr_m loc_of_shr_record round_nearest_even].
  rewrite Keep. cbn [shr_record_of_loc shr_m].
  unfold prec, emax. destruct (Z.leb_spec (d - 53) (1024 - 53)); [| lia].
  eauto.
Qed.

Lemma Prim2SF_zero : Prim2SF 0 = S754_zero false.
Proof. reflexivity. Qed.

(** [(double)n] of an [unsigned int] is finite and not negative: zero
    times it is [+0.0]. *)
Lemma zero_times_unsigned n :
  0 <= n < 2 ^ 32 -> (0 * double_of_Z n)%float = 0%float.
Proof.
  intros Hn. destruct n as [| p | p]; [reflexivity | | lia].
  apply Prim2SF_inj. rewrite mul_spec. unfold double_of_Z.
  rewrite of_uint63_spec, Uint63.of_Z_spec.
  rewrite Z.mod_small by (change Uint63.wB with (2 ^ 63); lia).
  destruct (binary_normalize_small p ltac:(lia)) as (m & e & ->).
  reflexivity.
Qed.

(** A finite double times zero is a zero. *)
Lemma finite_times_zero w :
  is_finite w = true -> (w * 0 = 0 \/ w * 0 = - 0)%float.
Proof.
  intros Hw.
  assert (Hz : exists s, Prim2SF (w * 0) = S754_zero s).
  { rewrite mul_spec, Prim2SF_zero.
    unfold is_finite, is_nan, is_infinity in Hw.
    rewrite !FloatAxioms.eqb_spec, abs_spec in Hw.
    destruct (Prim2SF w) as [s | s | | s m e]; simpl in *; eauto; try discriminate.
    destruct s; discriminate. }
  destruct Hz as [[|] Hs]; [right | left]; apply Prim2SF_inj; rewrite Hs; reflexivity.
Qed.

(** Adding a zero to [+0.0] leaves [+0.0]. *)
Lemma zero_plus_finite_times_zero w :
  is_finite w = true -> (0 + w * 0 = 0)%float.
Proof.
  intros Hw. destruct (finite_times_zero w Hw) as [-> | ->]; reflexivity.
Qed.

End Finite.

(** ** Contractions that add nothing *)

Section Unattached.

Context `{Lib : Library}.
Variable Fgamma : Z -> float -> float.

(** The weight of a pair of primitives in a contraction. *)
Definition pair_weight (gk gl : GTO) : float :=
  (get_norm gk * get_norm gl * get_coefficient gk * get_coefficient gl)%float.

Lemma nuclear_deriv_unattached cgf1 cgf2 nucleus charge nucderiv coord :
  attached cgf1 nucderiv = false -> attached cgf2 nucderiv = false ->
  (squaredNorm (vec3_sub nucleus nucderiv) <? 0.0001)%float = false ->
  (forall gk gl, gk ∈ gtos cgf1 -> gl ∈ gtos cgf2 ->
     is_finite (pair_weight gk gl) = true) ->
  0 <= charge < 2 ^ 32 ->
  nuclear_deriv_cgf Fgamma cgf1 cgf2 nucleus charge nucderiv coord = Ok 0%float.
Proof.
  intros E1 E2 E3 Hfin Hq. unfold nuclear_deriv_cgf. rewrite E1, E2, E3.
  cbn [mbind outcome_bind].
  match goal with |- context [foldM ?f ?l ?s] =>
    destruct (foldM_inv (fun sum : float => sum = 0%float) f l s) as (v & -> & ->)
  end.
  - intros gk s Hk ->. apply foldM_inv; [| reflexivity].
    intros gl s Hl ->. eexists. split; [reflexivity |].
    change (0 + 0 + 0)%float with 0%float.
    apply (zero_plus_finite_times_zero (pair_weight gk gl)). now apply Hfin.
  - reflexivity.
  - cbn [mbind outcome_bind]. f_equal. now apply zero_times_unsigned.
Qed.

(** Contracted functions without primitives. *)

Lemma fold_left_keep {A St} (f : St -> A -> St) l s :
  (forall s x, f s x = s) -> fold_left f l s = s.
Proof.
  intros H. revert s. induction l as [| x l IH]; intros s; [reflexivity |].
  simpl. rewrite H. apply IH.
Qed.

Lemma contract2_empty kernel cgf1 cgf2 :
  gtos cgf1 = [] \/ gtos cgf2 = [] -> contract2 kernel cgf1 cgf2 = 0%float.
Proof.
  unfold contract2. intros [-> | ->]; [reflexivity |].
  apply fold_left_keep. reflexivity.
Qed.

Lemma repulsion_cgf_empty cgf1 cgf2 cgf3 cgf4 :
  gtos cgf1 = [] \/ gtos cgf2 = [] \/ gtos cgf3 = [] \/ gtos cgf4 = [] ->
  repulsion_cgf cgf1 cgf2 cgf3 cgf4 = 0%float.
Proof.
  unfold repulsion_cgf. intros [-> | [-> | [-> | ->]]]; [reflexivity | | |].
  - apply fold_left_keep. reflexivity.
  - apply fold_left_keep. intros s g. apply fold_left_keep. reflexivity.
  - apply fold_left_keep. intros s g. apply fold_left_keep. intros s' g'.
    apply fold_left_keep. reflexivity.
Qed.

End Unattached.

(** ** The returned vector *)

Section FlatVector.

Context `{Lib : Library}.




End FlatVector.

(** ** The OpenMP table *)

Section Init.

Definition known_openmp : list Z :=
  [200505; 200805; 201107; 201307; 201511; 201811; 202011].

Lemma openmp_versions_known date :
  0 <= date < 2 ^ 32 ->
  (date ∈ known_openmp -> exists v, map_at openmp_versions date = Ok v) /\
  (date ∉ known_openmp -> map_at openmp_versions date = Throw out_of_range).
Proof.
  intros Hd. unfold map_at. rewrite wrap32_small by exact Hd. split.
  - intros Hin. unfold known_openmp in Hin.
    repeat (apply elem_of_cons in Hin as [-> | Hin]; [eexists; reflexivity |]).
    inversion Hin.
  - intros Hout. unfold known_openmp in Hout.
    assert (E : openmp_versions !! date = None).
    { unfold openmp_versions. simpl.
      repeat (rewrite lookup_insert_ne;
              [| intros <-; apply Hout; repeat (try (left; fail); right)]).
      apply lookup_empty. }
    now rewrite E.
Qed.

End Init.

(** ** The terms of [binomial_prefactor] *)

Section Fallback.

Context `{Lib : Library}.

(** The binomial coefficient as a quotient of factorials, without the
    guard of [binomial]. *)
Definition factorial_quotient (a b : Z) : float :=
  (factorial a / (factorial b * factorial (a - b)))%float.

Lemma binomial_prefactor_quotients s ia ib xpa xpb :
  - 2 ^ 30 <= s < 2 ^ 30 -> - 2 ^ 30 <= ia < 2 ^ 30 -> - 2 ^ 30 <= ib < 2 ^ 30 ->
  binomial_prefactor s ia ib xpa xpb =
  for_acc (Z.to_nat (s + 1)) 0 (fun t sum =>
    if (s - ia <=? t) && (t <=? ib)
    then (sum + factorial_quotient ia (s - t) * factorial_quotient ib t *
                libm_pow xpa (double_of_Z (ia - s + t)) *
                libm_pow xpb (double_of_Z (ib - t)))%float
    else sum) 0%float.
Proof.
  intros Hs Hia Hib. unfold binomial_prefactor, int_add, int_sub.
  rewrite (to_int_small (s + 1)), (to_int_small (s - ia)), (to_int_small (ia - s)) by lia.
  apply for_acc_ext. intros t sum Ht.
  destruct (Z.leb_spec (s - ia) t); [| reflexivity].
  destruct (Z.leb_spec t ib); [| reflexivity]. cbn [andb].
  rewrite (to_int_small (s - t)), (to_int_small (ia - s + t)), (to_int_small (ib - t)) by lia.
  unfold binomial, factorial_quotient, int_sub.
  rewrite (to_int_small (ia - (s - t))), (to_int_small (ib - t)) by lia.
  destruct (Z.ltb_spec ia 0); [lia |]. destruct (Z.ltb_spec (s - t) 0); [lia |].
  destruct (Z.ltb_spec (ia - (s - t)) 0); [lia |].
  destruct (Z.ltb_spec ib 0); [lia |]. destruct (Z.ltb_spec t 0); [lia |].
  destruct (Z.ltb_spec (ib - t) 0); [lia |]. reflexivity.
Qed.

End Fallback.

(** ** The jobs the evaluation loop runs *)

Section TruncatedCount.

Context `{Lib : Library}.


End TruncatedCount.

Section DerivativeCoordinate.

Context `{Lib : Library}.

(** A loop over a non-empty list whose body has undefined behaviour in
    every state. *)
Lemma foldM_undefined {A St} (f : A -> St -> outcome St) l s :
  l <> [] -> (forall x s, x ∈ l -> f x s = Undefined) -> foldM f l s = Undefined.
Proof.
  intros Hne H. destruct l as [| x l]; [congruence |].
  simpl. rewrite (H x s) by left. reflexivity.
Qed.

Lemma contract2_deriv_undefined (deriv : GTO -> GTO -> Z -> outcome float)
    n1 n2 cgf1 cgf2 coord :
  (forall g g', deriv g g' coord = Undefined) ->
  n1 <> n2 -> gtos cgf1 <> [] -> gtos cgf2 <> [] ->
  contract2_deriv deriv n1 n2 cgf1 cgf2 coord = Undefined.
Proof.
  intros Hd Hn H1 H2. unfold contract2_deriv.
  apply foldM_undefined; [exact H1 |]. intros gk s _.
  apply foldM_undefined; [exact H2 |]. intros gl s' _.
  destruct n1, n2; try congruence; rewrite !Hd; reflexivity.
Qed.

Lemma pair_deriv_undefined cgf1 cgf2 nucleus coord :
  coord < 0 \/ 3 <= coord ->
  attached cgf1 nucleus <> attached cgf2 nucleus ->
  gtos cgf1 <> [] -> gtos cgf2 <> [] ->
  overlap_deriv_cgf cgf1 cgf2 nucleus coord = Undefined /\
  kinetic_deriv_cgf cgf1 cgf2 nucleus coord = Undefined.
Proof.
  intros Hc Hn H1 H2. unfold overlap_deriv_cgf, kinetic_deriv_cgf.
  destruct (Bool.eqb (attached cgf1 nucleus) (attached cgf2 nucleus)) eqn:E.
  { apply Bool.eqb_prop in E. contradiction. }
  split; apply contract2_deriv_undefined; try assumption; intros g g'.
  - unfold overlap_deriv_gto. now rewrite gto_ang_out_of_range.
  - unfold kinetic_deriv_gto. now rewrite gto_ang_out_of_range.
Qed.

Lemma repulsion_deriv_equal_flags cgf1 cgf2 cgf3 cgf4 nucleus coord :
  attached cgf1 nucleus = attached cgf2 nucleus ->
  attached cgf2 nucleus = attached cgf3 nucleus ->
  attached cgf3 nucleus = attached cgf4 nucleus ->
  repulsion_deriv_cgf cgf1 cgf2 cgf3 cgf4 nucleus coord = Ok 0%float.
Proof.
  intros E1 E2 E3. unfold repulsion_deriv_cgf.
  rewrite E1, E2, E3, !Bool.eqb_reflx. reflexivity.
Qed.

Lemma repulsion_deriv_undefined cgf1 cgf2 cgf3 cgf4 nucleus coord :
  coord < 0 \/ 3 <= coord ->
  ~ (attached cgf1 nucleus = attached cgf2 nucleus /\
     attached cgf2 nucleus = attached cgf3 nucleus /\
     attached cgf3 nucleus = attached cgf4 nucleus) ->
  gtos cgf1 <> [] -> gtos cgf2 <> [] -> gtos cgf3 <> [] -> gtos cgf4 <> [] ->
  repulsion_deriv_cgf cgf1 cgf2 cgf3 cgf4 nucleus coord = Undefined.
Proof.
  intros Hc Hn H1 H2 H3 H4. unfold repulsion_deriv_cgf.
  assert (Hd : forall g1 g2 g3 g4, repulsion_deriv_gto g1 g2 g3 g4 coord = Undefined).
  { intros. unfold repulsion_deriv_gto. now rewrite gto_ang_out_of_range. }
  destruct (attached cgf1 nucleus), (attached cgf2 nucleus),
    (attached cgf3 nucleus), (attached cgf4 nucleus);
    try (exfalso; apply Hn; repeat split; fail); cbn [Bool.eqb andb];
    (apply foldM_undefined; [exact H1 |]; intros gi s1 _;
     apply foldM_undefined; [exact H2 |]; intros gj s2 _;
     apply foldM_undefined; [exact H3 |]; intros gk s3 _;
     apply foldM_undefined; [exact H4 |]; intros gl s4 _;
     rewrite !Hd; reflexivity).
Qed.

End DerivativeCoordinate.

(** ** Keys through the declared interface *)

Section Declared.

Lemma teindex_declared_exact i j k l :
  0 <= i < 361 -> 0 <= j < 361 -> 0 <= k < 361 -> 0 <= l < 361 ->
  teindex_declared i j k l = teindex i j k l.
Proof.
  intros Hi Hj Hk Hl. unfold teindex_declared.
  rewrite !wrap64_small by lia.
  pose proof (teindex_le_top 361 i j k l ltac:(unfold max_basis; lia) Hi Hj Hk Hl) as H.
  change (teindex (361 - 1) (361 - 1) (361 - 1) (361 - 1)) with 2134755810 in H.
  apply to_int_small. lia.
Qed.

Lemma teindex_declared_narrows n :
  362 <= n <= max_basis ->
  teindex_declared (n - 1) (n - 1) (n - 1) (n - 1) <
  teindex (n - 1) (n - 1) (n - 1) (n - 1).
Proof.
  intros Hn. unfold teindex_declared.
  rewrite !wrap64_small by (unfold max_basis in Hn; lia).
  pose proof (teindex_le_top n 361 361 361 361 ltac:(lia)
                ltac:(lia) ltac:(lia) ltac:(lia) ltac:(lia)) as H.
  change (teindex 361 361 361 361) with 2158474955 in H.
  set (t := teindex (n - 1) (n - 1) (n - 1) (n - 1)) in *.
  unfold to_int. pose proof (Z.mod_pos_bound t (2 ^ 32) ltac:(lia)) as Hm.
  unfold wrap32. destruct (Z.ltb_spec (t mod 2 ^ 32) (2 ^ 31)); lia.
Qed.

End Declared.

(** ** Exchanges that are exact *)

Section Commutative.

Lemma SFadd_comm (x y : spec_float) : SF64add x y = SF64add y x.
Proof.
  unfold SF64add.
  destruct x as [sx | sx | | sx mx ex], y as [sy | sy | | sy my ey]; simpl;
    try reflexivity; try (destruct sx, sy; reflexivity).
  rewrite (Z.min_comm ey ex). f_equal. apply Z.add_comm.
Qed.

Lemma SFmul_comm (x y : spec_float) : SF64mul x y = SF64mul y x.
Proof.
  unfold SF64mul.
  destruct x as [sx | sx | | sx mx ex], y as [sy | sy | | sy my ey]; simpl;
    try reflexivity; try (destruct sx, sy; reflexivity).
  rewrite (Pos.mul_comm my mx), (Z.add_comm ey ex), (Bool.xorb_comm sy sx).
  reflexivity.
Qed.

Lemma float_add_comm x y : (x + y = y + x)%float.
Proof. apply Prim2SF_inj. rewrite !add_spec. apply SFadd_comm. Qed.

Lemma float_mul_comm x y : (x * y = y * x)%float.
Proof. apply Prim2SF_inj. rewrite !mul_spec. apply SFmul_comm. Qed.

End Commutative.

Section ExactSymmetries.

Context `{Lib : Library}.

Lemma binomial_mirror a b :
  - 2 ^ 30 <= a < 2 ^ 30 -> - 2 ^ 30 <= b < 2 ^ 30 ->
  binomial a (a - b) = binomial a b.
Proof.
  intros Ha Hb. unfold binomial, int_sub.
  rewrite (to_int_small (a - (a - b))), (to_int_small (a - b)) by lia.
  replace (a - (a - b)) with b by lia.
  destruct (Z.ltb_spec a 0); [reflexivity |].
  destruct (Z.ltb_spec b 0), (Z.ltb_spec (a - b) 0); try reflexivity.
  cbn [orb]. f_equal. apply float_mul_comm.
Qed.

Lemma gaussian_product_center_comm alpha1 a alpha2 b :
  gaussian_product_center alpha1 a alpha2 b =
  gaussian_product_center alpha2 b alpha1 a.
Proof.
  unfold gaussian_product_center, vec3_div, vec3_add, vec3_scale.
  cbn [vec3_x vec3_y vec3_z fst snd].
  rewrite (float_add_comm alpha2 alpha1).
  rewrite (float_add_comm (alpha2 * vec3_x b) (alpha1 * vec3_x a)).
  rewrite (float_add_comm (alpha2 * vec3_y b) (alpha1 * vec3_y a)).
  rewrite (float_add_comm (alpha2 * vec3_z b) (alpha1 * vec3_z a)).
  reflexivity.
Qed.

End ExactSymmetries.

(** ** Exceptions *)


Section NoThrow.

Context `{Lib : Library}.










End NoThrow.

(** * The claims of the specification *)

(** A small computable instance of [Library] on which the model runs on
    closed inputs; nothing proved below depends on its values. *)
Definition example_library : Library := {|
  libm_pow := fun x _ => x;
  libm_exp := fun _ => 1%float;
  factorial := fun _ => 1%float;
  double_factorial := fun _ => 1%float;
  gto_normalization := fun _ _ _ _ => 1%float;
  nuclear_gto := fun _ _ _ => 0%float;
  repulsion_gto := fun _ _ _ _ => 1%float
|}.

Definition origin : vec3 := (0%float, 0%float, 0%float).

(** An s-type and a p-type contracted function of one primitive each. *)
Definition cgf_s : CGF := mkCGF origin [mkGTO 1 0.5 0 0 0 origin 1].

Definition cgf_p : CGF :=
  mkCGF (1.4%float, 0%float, 0%float)
        [mkGTO 1 0.5 1 0 0 (1.4%float, 0%float, 0%float) 1].

(** C1: for every quadruple of indices, [teindex] returns the same key
    for all eight permutations related by bra/ket and electron-pair
    symmetry; the key is built by ordering each pair, forming the compound
    indices, ordering them and forming their compound index, which below
    [max_basis] is the integer [ij(ij+1)/2 + kl] of the specification. *)
Theorem teindex_symmetry i j k l :
  (teindex i j k l = teindex j i k l /\
   teindex i j k l = teindex i j l k /\
   teindex i j k l = teindex j i l k /\
   teindex i j k l = teindex k l i j /\
   teindex i j k l = teindex l k i j /\
   teindex i j k l = teindex k l j i /\
   teindex i j k l = teindex l k j i) /\
  teindex i j k l =
    tri (Z.max (tri (Z.max i j) (Z.min i j)) (tri (Z.max k l) (Z.min k l)))
        (Z.min (tri (Z.max i j) (Z.min i j)) (tri (Z.max k l) (Z.min k l))) /\
  (0 <= i < max_basis -> 0 <= j < max_basis ->
   0 <= k < max_basis -> 0 <= l < max_basis ->
   teindex i j k l = canonical_key i j k l).
Proof.
  split; [| split].
  - repeat split.
    + apply teindex_swap_bra.
    + apply teindex_swap_ket.
    + rewrite (teindex_swap_bra i j k l). apply teindex_swap_ket.
    + apply teindex_swap_pairs.
    + rewrite (teindex_swap_pairs i j k l). apply teindex_swap_bra.
    + rewrite (teindex_swap_pairs i j k l). apply teindex_swap_ket.
    + rewrite (teindex_swap_pairs i j k l), (teindex_swap_bra k l i j).
      apply teindex_swap_ket.
  - apply teindex_tri.
  - intros Hi Hj Hk Hl. apply (teindex_canonical max_basis); lia.
Qed.

Lemma teindex_symmetry_witness :
  teindex 3 1 2 0 = teindex 0 2 1 3 /\ teindex 3 1 2 0 = canonical_key 3 1 2 0.
Proof.
  destruct (teindex_symmetry 3 1 2 0) as ((_ & _ & _ & _ & _ & _ & H) & _ & Hc).
  split; [exact H | apply Hc; unfold max_basis; lia].
Defined.














(** C6: for every pair of primitives whose second orbital has angular
    momenta below [2^16], [kinetic] equals
    [alpha2 (2(l2+m2+n2)+3) S(l2,m2,n2)
     - 2 alpha2^2 (S(l2+2,m2,n2) + S(l2,m2+2,n2) + S(l2,m2,n2+2))
     - 1/2 (l2(l2-1) S(l2-2,m2,n2) + m2(m2-1) S(l2,m2-2,n2) + n2(n2-1) S(l2,m2,n2-2))],
    each [S] the primitive overlap with the second orbital's momenta
    shifted; the coefficient of a lowered term is zero when the momentum
    is 0 or 1. *)
Theorem kinetic_closed_form `{Lib : Library} gto1 gto2 :
  0 <= get_l gto2 < 2 ^ 16 -> 0 <= get_m gto2 < 2 ^ 16 -> 0 <= get_n gto2 < 2 ^ 16 ->
  kinetic_gto gto1 gto2 = kinetic_formula gto1 gto2 /\
  (get_l gto2 = 0 \/ get_l gto2 = 1 ->
   double_of_Z (get_l gto2 * (get_l gto2 - 1)) = 0%float) /\
  (get_m gto2 = 0 \/ get_m gto2 = 1 ->
   double_of_Z (get_m gto2 * (get_m gto2 - 1)) = 0%float) /\
  (get_n gto2 = 0 \/ get_n gto2 = 1 ->
   double_of_Z (get_n gto2 * (get_n gto2 - 1)) = 0%float).
Proof.
  intros Hl Hm Hn. split; [now apply kinetic_gto_formula |].
  repeat split; intros [-> | ->]; reflexivity.
Qed.

Lemma kinetic_closed_form_witness :
  kinetic_gto (Lib := example_library)
    (mkGTO 1 0.5 0 0 0 origin 1) (mkGTO 1 0.5 1 0 2 origin 1) =
  kinetic_formula (Lib := example_library)
    (mkGTO 1 0.5 0 0 0 origin 1) (mkGTO 1 0.5 1 0 2 origin 1).
Proof.
  apply (kinetic_closed_form (Lib := example_library)); simpl; lia.
Defined.

(** C7: for all [int] arguments, [binomial(a, b)] is [1.0] whenever
    [a < 0], [b < 0] or [a < b], and [a! / (b! (a-b)!)], with Boost's
    factorial, otherwise. *)
Theorem binomial_cases `{Lib : Library} a b :
  is_int a -> is_int b ->
  (a < 0 \/ b < 0 \/ a < b -> binomial a b = 1%float) /\
  (~ (a < 0 \/ b < 0 \/ a < b) ->
   binomial a b = (factorial a / (factorial b * factorial (a - b)))%float).
Proof.
  intros Ha Hb. pose proof (binomial_guard a b Ha Hb) as Hg. unfold binomial.
  destruct ((a <? 0) || (b <? 0) || (int_sub a b <? 0)) eqn:E.
  - split; [reflexivity |]. intros Hn. exfalso. apply Hn. now apply Hg.
  - split.
    + intros H. apply Hg in H. discriminate.
    + intros Hn. unfold int_sub. unfold is_int in Ha, Hb.
      rewrite to_int_small by lia. reflexivity.
Qed.

Lemma binomial_cases_witness :
  binomial (Lib := example_library) 2 5 = 1%float /\
  binomial (Lib := example_library) (-3) 1 = 1%float.
Proof.
  split.
  - apply (proj1 (binomial_cases (Lib := example_library) 2 5
                    ltac:(unfold is_int; lia) ltac:(unfold is_int; lia))). lia.
  - apply (proj1 (binomial_cases (Lib := example_library) (-3) 1
                    ltac:(unfold is_int; lia) ltac:(unfold is_int; lia))). lia.
Defined.

(** C8: on contracted functions, [overlap_deriv] and [kinetic_deriv]
    return exactly [0.0] whenever both operands or neither operand is
    attached to the differentiation nucleus (the test
    [(r - nucleus).squaredNorm() < 0.0001]), and [repulsion_deriv] returns
    exactly [0.0] when none of the four operands is attached. *)
Theorem derivative_early_exit `{Lib : Library} nucleus coord :
  (forall cgf1 cgf2,
     attached cgf1 nucleus = attached cgf2 nucleus ->
     overlap_deriv_cgf cgf1 cgf2 nucleus coord = Ok 0%float /\
     kinetic_deriv_cgf cgf1 cgf2 nucleus coord = Ok 0%float) /\
  (forall cgf1 cgf2 cgf3 cgf4,
     attached cgf1 nucleus = false -> attached cgf2 nucleus = false ->
     attached cgf3 nucleus = false -> attached cgf4 nucleus = false ->
     repulsion_deriv_cgf cgf1 cgf2 cgf3 cgf4 nucleus coord = Ok 0%float).
Proof.
  split.
  - intros cgf1 cgf2 E. unfold overlap_deriv_cgf, kinetic_deriv_cgf.
    rewrite E, Bool.eqb_reflx. split; reflexivity.
  - intros cgf1 cgf2 cgf3 cgf4 E1 E2 E3 E4. unfold repulsion_deriv_cgf.
    rewrite E1, E2, E3, E4. reflexivity.
Qed.

Lemma derivative_early_exit_witness :
  overlap_deriv_cgf (Lib := example_library) cgf_s cgf_s origin 0 = Ok 0%float /\
  kinetic_deriv_cgf (Lib := example_library) cgf_p cgf_p origin 0 = Ok 0%float /\
  repulsion_deriv_cgf (Lib := example_library) cgf_p cgf_p cgf_p cgf_p origin 0 =
    Ok 0%float.
Proof.
  destruct (derivative_early_exit (Lib := example_library) origin 0) as [H2 H4].
  split; [| split].
  - apply (H2 cgf_s cgf_s). reflexivity.
  - apply (H2 cgf_p cgf_p). reflexivity.
  - apply (H4 cgf_p cgf_p cgf_p cgf_p); reflexivity.
Defined.

(** C9 at a basis of 362 functions: the array has 2158474956 slots, one
    per job; [(int)jobs.size()] is negative, so the evaluation loop runs
    no job and every slot is returned with the mark [1.0] of the job loop
    instead of a repulsion integral. *)
Theorem evaluation_skipped_at_362 `{Lib : Library} (c : CGF) :
  te_size 362 = 2158474956 /\
  to_int (te_size 362) < 0 /\
  two_electron (replicate 362 c) = Ok (replicate (Z.to_nat (te_size 362)) 1%float).
Proof.
  assert (E : te_size 362 = 2158474956) by (vm_compute; reflexivity).
  split; [exact E |]. split; [rewrite E; reflexivity |].
  pose proof (two_electron_unwritten (replicate 362 c)) as H. cbv zeta in H.
  rewrite length_replicate in H. change (Z.of_nat 362) with 362 in H.
  apply H; [unfold max_basis; lia | rewrite E; lia].
Qed.

(** C10, as stated, fails: for the empty basis the requested size is 0. *)
Lemma empty_basis_size_is_zero : ~ (te_size 0 <> 0 /\ te_size 0 <> 1).
Proof. intros [H _]. apply H. reflexivity. Qed.

(** C10, amended: for the empty basis [sz - 1] wraps to [2^64 - 1], the
    key of (sz-1, sz-1, sz-1, sz-1) is [2^64 - 1], adding one wraps to the
    requested size 0, and the call returns the empty vector. *)
Theorem empty_basis_wraps_to_zero `{Lib : Library} charges px py pz :
  size_sub 0 1 = 2 ^ 64 - 1 /\
  teindex (size_sub 0 1) (size_sub 0 1) (size_sub 0 1) (size_sub 0 1) = 2 ^ 64 - 1 /\
  te_size 0 = 0 /\
  evaluate_cgfs [] charges px py pz = Ok [].
Proof. repeat split. Qed.

(** * Further properties of the two-electron array *)

(** For every basis-set size, [teindex] restricted to the quadruples
    with [ij <= kl] is onto the index range up to the key of
    (N-1, N-1, N-1, N-1), wrap-around included. *)
Theorem teindex_surjective sz v :
  1 <= sz < 2 ^ 64 ->
  0 <= v <= teindex (sz - 1) (sz - 1) (sz - 1) (sz - 1) ->
  exists i j k l,
    0 <= i < sz /\ 0 <= j < sz /\ 0 <= k < sz /\ 0 <= l < sz /\
    tri i j <= tri k l /\ teindex i j k l = v.
Proof. apply teindex_onto. Qed.

Lemma teindex_surjective_witness :
  exists i j k l,
    0 <= i < 2 /\ 0 <= j < 2 /\ 0 <= k < 2 /\ 0 <= l < 2 /\
    tri i j <= tri k l /\ teindex i j k l = 3.
Proof.
  apply (teindex_surjective 2 3); [lia |].
  change (teindex (2 - 1) (2 - 1) (2 - 1) (2 - 1)) with 5. lia.
Defined.



(** Below [max_basis], two quadruples have the same key exactly when
    they are related by the bra/ket and electron-pair symmetries: no two
    different integrals share a slot of the two-electron array. *)
Theorem teindex_injective i j k l i' j' k' l' :
  0 <= i < max_basis -> 0 <= j < max_basis ->
  0 <= k < max_basis -> 0 <= l < max_basis ->
  0 <= i' < max_basis -> 0 <= j' < max_basis ->
  0 <= k' < max_basis -> 0 <= l' < max_basis ->
  (teindex i j k l = teindex i' j' k' l' <-> same_integral i j k l i' j' k' l').
Proof.
  intros Hi Hj Hk Hl Hi' Hj' Hk' Hl'. split.
  - now apply teindex_inj.
  - apply teindex_same_integral.
Qed.

Lemma teindex_injective_witness :
  teindex 3 1 2 0 = teindex 0 2 1 3 <-> same_integral 3 1 2 0 0 2 1 3.
Proof. apply teindex_injective; unfold max_basis; lia. Defined.





(** Through the declared interface the key is the key of [teindex] for
    all indices below 361; for every basis of 362 to [max_basis]
    functions the key of the last quadruple does not fit an [int] and
    a smaller number comes back. *)
Theorem declared_key_narrows :
  (forall i j k l,
     0 <= i < 361 -> 0 <= j < 361 -> 0 <= k < 361 -> 0 <= l < 361 ->
     teindex_declared i j k l = teindex i j k l) /\
  (forall n, 362 <= n <= max_basis ->
     teindex_declared (n - 1) (n - 1) (n - 1) (n - 1) <
     teindex (n - 1) (n - 1) (n - 1) (n - 1)).
Proof.
  split.
  - intros. now apply teindex_declared_exact.
  - intros. now apply teindex_declared_narrows.
Qed.

Lemma declared_key_narrows_witness :
  teindex_declared 3 1 2 0 = teindex 3 1 2 0 /\
  teindex_declared 361 361 361 361 = -2136492341.
Proof.
  destruct declared_key_narrows as [H _]. split.
  - apply H; lia.
  - reflexivity.
Defined.

(** * Further properties of [evaluate_cgfs] *)



(** The point charges reach [nuclear] through a conversion from [int]
    to [unsigned int]: a call with a negative charge [q] returns what the
    call with the charge [q + 2^32] returns, and the nuclear attraction
    integral of a negative charge is weighted by [(double)(q + 2^32)]. *)
Theorem negative_charge_is_unsigned `{Lib : Library} cgfs charges px py pz :
  evaluate_cgfs cgfs charges px py pz =
  evaluate_cgfs cgfs ((fun q => if q <? 0 then q + 2 ^ 32 else q) <$> charges) px py pz /\
  (forall q ci cj nucleus, - 2 ^ 31 <= q < 0 ->
     nuclear_cgf ci cj nucleus (wrap32 q) =
     (contract2 (fun g1 g2 => nuclear_gto g1 g2 nucleus) ci cj *
      double_of_Z (q + 2 ^ 32))%float).
Proof.
  split.
  - unfold evaluate_cgfs. rewrite integral_matrices_unsigned; [reflexivity |].
    intros q. destruct (q <? 0); [| reflexivity].
    unfold wrap32. rewrite <- (Z.mul_1_l (2 ^ 32)) at 1.
    apply Z.mod_add. lia.
  - intros q ci cj nucleus Hq. unfold nuclear_cgf. now rewrite wrap32_negative.
Qed.

Lemma negative_charge_is_unsigned_witness :
  nuclear_cgf (Lib := example_library) cgf_s cgf_s origin (wrap32 (-1)) =
  (contract2 (fun g1 g2 => nuclear_gto (Library := example_library) g1 g2 origin) cgf_s cgf_s *
   4294967295)%float.
Proof.
  apply (proj2 (negative_charge_is_unsigned (Lib := example_library) [] [] [] [] [])).
  lia.
Defined.







(** * Further properties of the primitive routines *)

(** Two exchanges leave a result unchanged to the last bit:
    [binomial(a, a-b)] is [binomial(a, b)] for all [int] arguments of
    magnitude below [2^30], the guard included, and the Gaussian product
    centre of two primitives does not depend on their order. *)
Theorem exact_exchange_symmetries `{Lib : Library} :
  (forall a b, - 2 ^ 30 <= a < 2 ^ 30 -> - 2 ^ 30 <= b < 2 ^ 30 ->
     binomial a (a - b) = binomial a b) /\
  (forall alpha1 a alpha2 b,
     gaussian_product_center alpha1 a alpha2 b =
     gaussian_product_center alpha2 b alpha1 a).
Proof.
  split.
  - intros. now apply binomial_mirror.
  - intros. apply gaussian_product_center_comm.
Qed.

Lemma exact_exchange_symmetries_witness :
  binomial (Lib := example_library) 5 (5 - 2) = binomial (Lib := example_library) 5 2.
Proof.
  apply (proj1 (exact_exchange_symmetries (Lib := example_library))); lia.
Defined.

(** [binomial_prefactor(s, ia, ib, ...)] is exactly [0.0] when no [t] of
    its loop passes the range test, that is when an exponent is negative
    or [s] exceeds [ia + ib]; [overlap_1D] runs no iteration and returns
    [0.0] when [l1 + l2] is negative, as in the lowered terms of
    [kinetic]. *)
Theorem empty_sums_are_zero `{Lib : Library} :
  (forall s ia ib xpa xpb,
     - 2 ^ 30 <= s < 2 ^ 30 -> - 2 ^ 30 <= ia < 2 ^ 30 ->
     ia < 0 \/ ib < 0 \/ ia + ib < s ->
     binomial_prefactor s ia ib xpa xpb = 0%float) /\
  (forall l1 l2 x1 x2 gamma,
     - 2 ^ 30 <= l1 < 2 ^ 30 -> - 2 ^ 30 <= l2 < 2 ^ 30 -> l1 + l2 < 0 ->
     overlap_1D l1 l2 x1 x2 gamma = 0%float).
Proof.
  split.
  - intros. now apply binomial_prefactor_zero.
  - intros. now apply overlap_1D_zero.
Qed.

Lemma empty_sums_are_zero_witness :
  binomial_prefactor (Lib := example_library) 4 1 2 0.5 0.25 = 0%float /\
  overlap_1D (Lib := example_library) 0 (to_int (uint_sub 0 2)) 0.5 0.25 1 = 0%float.
Proof.
  destruct (empty_sums_are_zero (Lib := example_library)) as [H1 H2].
  change (to_int (uint_sub 0 2)) with (-2).
  split; [apply H1 | apply H2]; lia.
Defined.

(** The fallback value [1.0] of [binomial] is never used by
    [binomial_prefactor]: every term that passes the range test is a
    product of two quotients of factorials and of two powers with
    non-negative exponents [ia - s + t] and [ib - t]. *)
Theorem binomial_prefactor_without_fallback `{Lib : Library} s ia ib xpa xpb :
  - 2 ^ 30 <= s < 2 ^ 30 -> - 2 ^ 30 <= ia < 2 ^ 30 -> - 2 ^ 30 <= ib < 2 ^ 30 ->
  binomial_prefactor s ia ib xpa xpb =
    for_acc (Z.to_nat (s + 1)) 0 (fun t sum =>
      if (s - ia <=? t) && (t <=? ib)
      then (sum + factorial_quotient ia (s - t) * factorial_quotient ib t *
                  libm_pow xpa (double_of_Z (ia - s + t)) *
                  libm_pow xpb (double_of_Z (ib - t)))%float
      else sum) 0%float /\
  (forall t, 0 <= t <= s -> s - ia <= t -> t <= ib ->
     0 <= s - t <= ia /\ 0 <= t <= ib /\ 0 <= ia - s + t /\ 0 <= ib - t).
Proof.
  intros Hs Hia Hib. split; [now apply binomial_prefactor_quotients | lia].
Qed.

Lemma binomial_prefactor_without_fallback_witness :
  binomial_prefactor (Lib := example_library) 2 1 2 0.5 0.25 =
  (0 + factorial_quotient (Lib := example_library) 1 1 *
       factorial_quotient (Lib := example_library) 2 1 * 0.5 * 0.25 +
   factorial_quotient (Lib := example_library) 1 0 *
       factorial_quotient (Lib := example_library) 2 2 * 0.5 * 0.25)%float.
Proof.
  apply (proj1 (binomial_prefactor_without_fallback (Lib := example_library)
                  2 1 2 0.5 0.25 ltac:(lia) ltac:(lia) ltac:(lia))).
Defined.



(** For non-negative angular momenta, [A_array] and [A_array_deriv]
    return a vector of [l1 + l2 + 1] doubles, and no [arrA[iI] += ...]
    falls outside it. *)
Theorem A_arrays_stay_in_bounds `{Lib : Library} l1 l2 pa pb cp g :
  0 <= l1 -> 0 <= l2 -> l1 + l2 < 2 ^ 30 ->
  (exists arr, A_array l1 l2 pa pb cp g = Ok arr /\
               Z.of_nat (length arr) = l1 + l2 + 1) /\
  (exists arr, A_array_deriv l1 l2 pa pb cp g = Ok arr /\
               Z.of_nat (length arr) = l1 + l2 + 1).
Proof.
  intros H1 H2 Hb. split; [now apply A_array_ok | now apply A_array_deriv_ok].
Qed.

Lemma A_arrays_stay_in_bounds_witness :
  exists arr, A_array (Lib := example_library) 1 1 0.5 0.25 0.125 1 = Ok arr /\
              Z.of_nat (length arr) = 3.
Proof.
  apply (proj1 (A_arrays_stay_in_bounds (Lib := example_library)
                  1 1 0.5 0.25 0.125 1 ltac:(lia) ltac:(lia) ltac:(lia))).
Defined.

(** When the component [cp] of [P - C] is zero (of either sign),
    [A_array_deriv] adds no term: it returns the vector of zeros. *)
Theorem A_array_deriv_vanishes `{Lib : Library} l1 l2 pa pb cp g :
  0 <= int_add (int_add l1 l2) 1 -> (cp =? 0)%float = true ->
  A_array_deriv l1 l2 pa pb cp g =
  Ok (replicate (Z.to_nat (int_add (int_add l1 l2) 1)) 0%float).
Proof. apply A_array_deriv_zero. Qed.

Lemma A_array_deriv_vanishes_witness :
  A_array_deriv (Lib := example_library) 1 1 0.5 0.25 (-0) 1 =
  Ok [0%float; 0%float; 0%float].
Proof.
  apply (A_array_deriv_vanishes (Lib := example_library) 1 1 0.5 0.25 (-0) 1);
    [change (0 <= 3); lia | reflexivity].
Defined.

(** For non-negative angular momenta, [B_array] returns a vector of
    [l1 + l2 + l3 + l4 + 1] doubles, and no [arrB[i] += ...] falls outside
    it. *)
Theorem B_array_stays_in_bounds `{Lib : Library}
    l1 l2 l3 l4 p a b q c d g1 g2 delta :
  0 <= l1 -> 0 <= l2 -> 0 <= l3 -> 0 <= l4 -> l1 + l2 + l3 + l4 < 2 ^ 30 ->
  exists arr, B_array l1 l2 l3 l4 p a b q c d g1 g2 delta = Ok arr /\
              Z.of_nat (length arr) = l1 + l2 + l3 + l4 + 1.
Proof. apply B_array_ok. Qed.

Lemma B_array_stays_in_bounds_witness :
  exists arr,
    B_array (Lib := example_library) 1 0 1 1 0.5 0.25 0.125 1 2 3 1 1 0.5 = Ok arr /\
    Z.of_nat (length arr) = 4.
Proof.
  apply (B_array_stays_in_bounds (Lib := example_library)
           1 0 1 1 0.5 0.25 0.125 1 2 3 1 1 0.5); lia.
Defined.

(** On two primitives, [nuclear] reads [ax], [ay] and [az] inside their
    bounds only and returns a value, the functions of [Library] and
    [Fgamma] being total. *)
Theorem nuclear_reads_in_bounds `{Lib : Library} (Fgamma : Z -> float -> float)
    gto1 gto2 nucleus :
  small_momenta gto1 -> small_momenta gto2 ->
  exists v, nuclear_primitives Fgamma gto1 gto2 nucleus = Ok v.
Proof.
  intros (Hl1 & Hm1 & Hn1) (Hl2 & Hm2 & Hn2). unfold nuclear_primitives.
  rewrite !to_int_small by lia. apply nuclear_ok; lia.
Qed.

Lemma nuclear_reads_in_bounds_witness :
  exists v,
    nuclear_primitives (Lib := example_library) (fun _ _ => 1%float)
      (mkGTO 1 0.5 1 0 2 origin 1) (mkGTO 1 0.5 0 1 0 origin 1) origin = Ok v.
Proof.
  apply (nuclear_reads_in_bounds (Lib := example_library)); repeat split; simpl; lia.
Defined.

(** On four primitives, [repulsion] reads [bx], [by] and [bz] inside
    their bounds only and returns a value, the functions of [Library] and
    [Fgamma] being total. *)
Theorem repulsion_reads_in_bounds `{Lib : Library} (Fgamma : Z -> float -> float)
    gto1 gto2 gto3 gto4 :
  small_momenta gto1 -> small_momenta gto2 ->
  small_momenta gto3 -> small_momenta gto4 ->
  exists v, repulsion_primitives Fgamma gto1 gto2 gto3 gto4 = Ok v.
Proof.
  intros (Hl1 & Hm1 & Hn1) (Hl2 & Hm2 & Hn2) (Hl3 & Hm3 & Hn3) (Hl4 & Hm4 & Hn4).
  unfold repulsion_primitives. rewrite !to_int_small by lia.
  apply repulsion_ok; lia.
Qed.

Lemma repulsion_reads_in_bounds_witness :
  exists v,
    repulsion_primitives (Lib := example_library) (fun _ _ => 1%float)
      (mkGTO 1 0.5 1 0 0 origin 1) (mkGTO 1 0.5 0 1 0 origin 1)
      (mkGTO 1 0.5 0 0 1 origin 1) (mkGTO 1 0.5 0 0 0 origin 1) = Ok v.
Proof.
  apply (repulsion_reads_in_bounds (Lib := example_library)); repeat split; simpl; lia.
Defined.

(** [nuclear_deriv_op] returns a value for the coordinates 0, 1 and 2;
    for any other coordinate it indexes [(c-p)] outside its three
    components. *)
Theorem nuclear_deriv_op_coordinate `{Lib : Library} (Fgamma : Z -> float -> float)
    gto1 gto2 nucleus coord :
  (0 <= coord < 3 -> small_momenta gto1 -> small_momenta gto2 ->
   exists v, nuclear_deriv_op_primitives Fgamma gto1 gto2 nucleus coord = Ok v) /\
  (coord < 0 \/ 3 <= coord ->
   nuclear_deriv_op_primitives Fgamma gto1 gto2 nucleus coord = Undefined).
Proof.
  split.
  - intros Hc (Hl1 & Hm1 & Hn1) (Hl2 & Hm2 & Hn2). unfold nuclear_deriv_op_primitives.
    rewrite !to_int_small by lia. apply nuclear_deriv_op_ok; lia.
  - intros Hc. now apply nuclear_deriv_op_undefined.
Qed.

Lemma nuclear_deriv_op_coordinate_witness :
  (exists v,
     nuclear_deriv_op_primitives (Lib := example_library) (fun _ _ => 1%float)
       (mkGTO 1 0.5 1 0 2 origin 1) (mkGTO 1 0.5 0 1 0 origin 1) origin 1 = Ok v) /\
  nuclear_deriv_op_primitives (Lib := example_library) (fun _ _ => 1%float)
    (mkGTO 1 0.5 1 0 2 origin 1) (mkGTO 1 0.5 0 1 0 origin 1) origin 3 = Undefined.
Proof.
  split.
  - apply (proj1 (nuclear_deriv_op_coordinate (Lib := example_library) _ _ _ _ 1));
      repeat split; simpl; lia.
  - apply (proj2 (nuclear_deriv_op_coordinate (Lib := example_library) _ _ _ _ 3)). lia.
Defined.

(** [nuclear_deriv_bf] follows the rule of the primitive derivatives:
    [2 alpha N(a+1) - a N(a-1)], or [2 alpha N(a+1)] when the momentum
    [a] along the coordinate is 0, with [N(x)] the nuclear integral of the
    first primitive with that momentum replaced by [x]; a coordinate
    other than 0, 1, 2 indexes [gto_ang] outside its bounds. *)
Theorem nuclear_basis_derivative_rule `{Lib : Library} (Fgamma : Z -> float -> float)
    gto1 gto2 nucleus coord :
  (0 <= coord < 3 -> 0 <= momentum gto1 coord < 2 ^ 32 - 1 ->
   nuclear_deriv_bf Fgamma gto1 gto2 nucleus coord =
   let a := momentum gto1 coord in
   let N x := nuclear_primitives Fgamma (with_momentum gto1 coord x) gto2 nucleus in
   if a =? 0 then
     term1 ← N (a + 1); Ok (2 * get_alpha gto1 * term1)%float
   else
     term_plus ← N (a + 1);
     term_min ← N (a - 1);
     Ok (2 * get_alpha gto1 * term_plus - double_of_Z a * term_min)%float) /\
  (coord < 0 \/ 3 <= coord ->
   nuclear_deriv_bf Fgamma gto1 gto2 nucleus coord = Undefined).
Proof.
  split.
  - intros Hc Ha. now apply nuclear_deriv_bf_rule.
  - intros Hc. now apply nuclear_deriv_bf_undefined.
Qed.

Lemma nuclear_basis_derivative_rule_witness :
  nuclear_deriv_bf (Lib := example_library) (fun _ _ => 1%float)
    (mkGTO 1 0.5 0 0 0 origin 1) (mkGTO 1 0.5 0 0 0 origin 1) origin 0 =
  (term1 ← nuclear_primitives (Lib := example_library) (fun _ _ => 1%float)
             (mkGTO 1 0.5 1 0 0 origin 1) (mkGTO 1 0.5 0 0 0 origin 1) origin;
   Ok (2 * 0.5 * term1)%float).
Proof.
  apply (proj1 (nuclear_basis_derivative_rule (Lib := example_library)
                  (fun _ _ => 1%float)
                  (mkGTO 1 0.5 0 0 0 origin 1) (mkGTO 1 0.5 0 0 0 origin 1) origin 0));
    cbn; lia.
Defined.

(** * Further properties of the contracted routines *)

(** On contracted functions, [repulsion_deriv] returns [0.0] whenever
    the four attachment flags are equal, attached or not, for any
    coordinate; when the flags of a derivative routine differ, every
    contracted function has a primitive and the coordinate is not 0, 1 or
    2, the first primitive derivative indexes [gto_ang] out of bounds. *)
Theorem derivative_coordinate_out_of_range `{Lib : Library} nucleus coord :
  (forall cgf1 cgf2 cgf3 cgf4,
     attached cgf1 nucleus = attached cgf2 nucleus ->
     attached cgf2 nucleus = attached cgf3 nucleus ->
     attached cgf3 nucleus = attached cgf4 nucleus ->
     repulsion_deriv_cgf cgf1 cgf2 cgf3 cgf4 nucleus coord = Ok 0%float) /\
  (coord < 0 \/ 3 <= coord ->
   (forall cgf1 cgf2,
      attached cgf1 nucleus <> attached cgf2 nucleus ->
      gtos cgf1 <> [] -> gtos cgf2 <> [] ->
      overlap_deriv_cgf cgf1 cgf2 nucleus coord = Undefined /\
      kinetic_deriv_cgf cgf1 cgf2 nucleus coord = Undefined) /\
   (forall cgf1 cgf2 cgf3 cgf4,
      ~ (attached cgf1 nucleus = attached cgf2 nucleus /\
         attached cgf2 nucleus = attached cgf3 nucleus /\
         attached cgf3 nucleus = attached cgf4 nucleus) ->
      gtos cgf1 <> [] -> gtos cgf2 <> [] -> gtos cgf3 <> [] -> gtos cgf4 <> [] ->
      repulsion_deriv_cgf cgf1 cgf2 cgf3 cgf4 nucleus coord = Undefined)).
Proof.
  split; [| split].
  - intros. now apply repulsion_deriv_equal_flags.
  - intros. now apply pair_deriv_undefined.
  - intros. now apply repulsion_deriv_undefined.
Qed.

Lemma derivative_coordinate_out_of_range_witness :
  repulsion_deriv_cgf (Lib := example_library) cgf_s cgf_s cgf_s cgf_s origin 3 =
    Ok 0%float /\
  overlap_deriv_cgf (Lib := example_library) cgf_s cgf_p origin 3 = Undefined /\
  repulsion_deriv_cgf (Lib := example_library) cgf_s cgf_s cgf_p cgf_s origin 3 =
    Undefined.
Proof.
  destruct (derivative_coordinate_out_of_range (Lib := example_library) origin 3)
    as [H0 H]. destruct (H ltac:(lia)) as [H2 H4]. split; [| split].
  - apply H0; reflexivity.
  - apply (proj1 (H2 cgf_s cgf_p ltac:(discriminate) ltac:(discriminate)
                    ltac:(discriminate))).
  - apply H4; try discriminate. intros (_ & E & _). discriminate E.
Defined.

(** [nuclear_deriv] has no early exit, yet when neither contracted
    function nor the nucleus of the operator lies at the differentiation
    centre, and the weights [norm_k norm_l c_k c_l] are finite, it calls no
    primitive routine and returns exactly [0.0], for any coordinate. *)
Theorem nuclear_deriv_far_from_centres `{Lib : Library}
    (Fgamma : Z -> float -> float) cgf1 cgf2 nucleus charge nucderiv coord :
  attached cgf1 nucderiv = false -> attached cgf2 nucderiv = false ->
  (squaredNorm (vec3_sub nucleus nucderiv) <? 0.0001)%float = false ->
  (forall gk gl, gk ∈ gtos cgf1 -> gl ∈ gtos cgf2 ->
     is_finite (pair_weight gk gl) = true) ->
  0 <= charge < 2 ^ 32 ->
  nuclear_deriv_cgf Fgamma cgf1 cgf2 nucleus charge nucderiv coord = Ok 0%float.
Proof. apply nuclear_deriv_unattached. Qed.

Lemma nuclear_deriv_far_from_centres_witness :
  nuclear_deriv_cgf (Lib := example_library) (fun _ _ => 1%float)
    cgf_s cgf_s origin 8 (1.4%float, 0%float, 0%float) 7 = Ok 0%float.
Proof.
  apply (nuclear_deriv_far_from_centres (Lib := example_library));
    try reflexivity; try lia.
  intros gk gl Hk Hl.
  apply list_elem_of_singleton in Hk, Hl. subst. reflexivity.
Defined.

(** A contracted function without primitives makes every contracted
    integral exactly [0.0]. *)
Theorem empty_contraction_is_zero `{Lib : Library} :
  (forall cgf1 cgf2, gtos cgf1 = [] \/ gtos cgf2 = [] ->
     overlap_cgf cgf1 cgf2 = 0%float /\ kinetic_cgf cgf1 cgf2 = 0%float /\
     forall nucleus charge, 0 <= charge < 2 ^ 32 ->
       nuclear_cgf cgf1 cgf2 nucleus charge = 0%float) /\
  (forall cgf1 cgf2 cgf3 cgf4,
     gtos cgf1 = [] \/ gtos cgf2 = [] \/ gtos cgf3 = [] \/ gtos cgf4 = [] ->
     repulsion_cgf cgf1 cgf2 cgf3 cgf4 = 0%float).
Proof.
  split.
  - intros cgf1 cgf2 H. unfold overlap_cgf, kinetic_cgf, nuclear_cgf.
    rewrite !contract2_empty by exact H. repeat split.
    intros nucleus charge Hq. rewrite contract2_empty by exact H.
    now apply zero_times_unsigned.
  - intros. now apply repulsion_cgf_empty.
Qed.

Lemma empty_contraction_is_zero_witness :
  overlap_cgf (Lib := example_library) cgf_p (mkCGF origin []) = 0%float /\
  repulsion_cgf (Lib := example_library) cgf_p cgf_s (mkCGF origin []) cgf_s = 0%float.
Proof.
  destruct (empty_contraction_is_zero (Lib := example_library)) as [H2 H4]. split.
  - apply (H2 cgf_p (mkCGF origin [])). now right.
  - apply (H4 cgf_p cgf_s (mkCGF origin []) cgf_s). right. right. now left.
Defined.

(** * The build information *)

(** Compiled by a GNU-compatible compiler with OpenMP, [init] completes
    exactly when the release date [_OPENMP] is one of the seven dates of
    its table, and stores the version the table gives; for any other date
    [map.at] throws [std::out_of_range]. *)
Theorem init_openmp_table m this version date :
  GNUC m = Some version -> OPENMP m = Some date -> 0 <= date < 2 ^ 32 ->
  (date ∈ known_openmp ->
   exists v,
     openmp_versions !! date = Some v /\
     init m this =
       Some (Ok (match MSC_FULL_VER m with
                 | None => mkBuildInfo (DATE m) (TIME m) v version "GNU/GCC"
                 | Some full_ver =>
                     mkBuildInfo (DATE m) (TIME m) (pretty date) (pretty full_ver) "MSVC"
                 end))) /\
  (date ∉ known_openmp -> init m this = Some (Throw out_of_range)).
Proof.
  intros Hg Ho Hd. destruct (openmp_versions_known date Hd) as [Hin Hout].
  unfold init. rewrite Hg, Ho. split.
  - intros H. destruct (Hin H) as (v & Ev). exists v. rewrite Ev.
    unfold map_at in Ev. rewrite wrap32_small in Ev by exact Hd.
    destruct (openmp_versions !! date) as [v' |]; [| discriminate].
    inversion Ev; subst v'. split; [reflexivity |].
    destruct (MSC_FULL_VER m); reflexivity.
  - intros H. rewrite (Hout H). destruct (MSC_FULL_VER m); reflexivity.
Qed.

Lemma init_openmp_table_witness :
  init (mkMacros "Jan  1 2024" "00:00:00" (Some "13.2.0"%string) (Some 202111) None)
       (mkBuildInfo EmptyString EmptyString EmptyString EmptyString EmptyString) = Some (Throw out_of_range).
Proof.
  apply (proj2 (init_openmp_table
                  (mkMacros "Jan  1 2024" "00:00:00" (Some "13.2.0"%string) (Some 202111) None)
                  (mkBuildInfo EmptyString EmptyString EmptyString EmptyString EmptyString) "13.2.0" 202111
                  eq_refl eq_refl ltac:(lia))).
  unfold known_openmp. intros H.
  repeat (apply elem_of_cons in H as [H | H]; [discriminate |]). inversion H.
Defined.
